(** * pastebin_scraper: keyword matching, seen-set cache and poll cycle

    A shallow embedding of [main.go].  Go strings are byte strings and are
    modelled by [string] (a list of 8-bit [ascii] values); Go maps are
    stdpp [gmap]s; a panic is the [None] of an option.  The packages the
    program leans on are modelled by executable definitions:

    - [regexp]: a backtracking matcher over the operators that occur in
      the two patterns of [parseKeywords].  Go documents its matches as
      the ones a backtracking search finds first (leftmost-first), which
      is what [FindStringSubmatch] below computes.  The matcher works on
      bytes: the classes [\d] and [\b] are ASCII-only in Go as well,
      [.] is any rune but a newline, and a cursor inside a UTF-8
      sequence has no word byte on either side, so that the bytes taken
      are the ones Go takes rune by rune.  Under [(?i)] an ASCII letter
      of the pattern matches both of its cases and, for s and k, the
      runes U+017F and U+212A that [unicode.SimpleFold] puts in their
      orbits.  The rest of the table of [unicode.SimpleFold] is not
      reproduced: a rune beyond ASCII in a keyword is compared byte by
      byte, and the statements on what a keyword matches are made for
      keywords of 7-bit characters.  [MustCompile] panics when the
      keyword is no valid UTF-8 or exceeds the size limit of the parser.
    - [unicode/utf8]: [ValidString] and [RuneCountInString].
    - [net]: [ParseIP], [ParseCIDR] and [IPNet.Contains] after the Go
      sources of go1.22 (decimal fields with leading zeros are rejected,
      as since go1.17).
    - [strings]: [Contains] and [TrimSpace], the latter with the white
      space of [unicode.IsSpace] in its UTF-8 encoding.
    - [time]: instants and durations are integers.

    The files of the repository that declare [keyword], [paste],
    [fetchPasteList] and the method [fetch] are not at hand; the record
    is modelled from its use, the others are parameters. *)

From Stdlib Require Import ZArith Ascii String List Lia Bool.
From stdpp Require Import base option list gmap strings fin_maps.

Local Open Scope string_scope.
Local Open Scope list_scope.

(** ** Bytes and strings *)

Abbreviation bytes := list_ascii_of_string.
Abbreviation str := string_of_list_ascii.

Definition byte_in (lo hi c : ascii) : bool :=
  (Ascii.leb lo c && Ascii.leb c hi)%char.

Definition is_digit (c : ascii) : bool := byte_in "0" "9" c.
Definition is_lower (c : ascii) : bool := byte_in "a" "z" c.
Definition is_upper (c : ascii) : bool := byte_in "A" "Z" c.

(** [\w] of RE2: [0-9A-Za-z_]. *)
Definition is_word (c : ascii) : bool :=
  is_digit c || is_lower c || is_upper c || Ascii.eqb c "_".

Definition newline : ascii := "010"%char.

(** ASCII lower-casing; two bytes that agree after it are the two cases
    of one ASCII letter, or equal. *)
Definition to_lower (c : ascii) : ascii :=
  if is_upper c then ascii_of_N (N_of_ascii c + 32) else c.

Definition fold_eqb (c d : ascii) : bool := Ascii.eqb (to_lower c) (to_lower d).

(** The two runes beyond ASCII that [unicode.SimpleFold] puts in the
    orbit of an ASCII letter, in UTF-8: U+017F (long s) with s and S,
    U+212A (Kelvin sign) with k and K. *)
Definition long_s : list ascii := ["197"; "191"]%char.
Definition kelvin : list ascii := ["226"; "132"; "170"]%char.

Definition fold_variant (c : ascii) : list ascii :=
  if fold_eqb c "s" then long_s else if fold_eqb c "k" then kelvin else [].

(** [a] without its prefix [p]. *)
Fixpoint strip_prefix (p a : list ascii) : option (list ascii) :=
  match p, a with
  | [], _ => Some a
  | x :: p', y :: a' => if Ascii.eqb x y then strip_prefix p' a' else None
  | _ :: _, [] => None
  end.

(** Characters below 128 only. *)
Definition seven_bit (s : list ascii) : bool :=
  forallb (fun c => (N_of_ascii c <? 128)%N) s.

(** ** Package unicode/utf8 *)

Module utf8.

(** A continuation byte, and a second byte within the given bounds (the
    accept ranges of the decoder). *)
Definition is_cont (c : ascii) : bool := byte_in "128" "191" c.

(** The width of the encoding at the head of [s]: 0 when [s] is empty or
    starts with no well-formed encoding (where [DecodeRuneInString]
    answers [RuneError] with width 1). *)
Definition width (s : list ascii) : nat :=
  match s with
  | [] => 0
  | c0 :: s1 =>
      if (N_of_ascii c0 <? 128)%N then 1
      else
        match s1 with
        | [] => 0
        | c1 :: s2 =>
            if byte_in "194" "223" c0 then (if is_cont c1 then 2 else 0)
            else
              let second :=
                if Ascii.eqb c0 "224" then byte_in "160" "191" c1
                else if Ascii.eqb c0 "237" then byte_in "128" "159" c1
                else if byte_in "225" "239" c0 then is_cont c1
                else if Ascii.eqb c0 "240" then byte_in "144" "191" c1
                else if Ascii.eqb c0 "244" then byte_in "128" "143" c1
                else if byte_in "241" "243" c0 then is_cont c1
                else false in
              match s2 with
              | [] => 0
              | c2 :: s3 =>
                  if negb (second && is_cont c2) then 0
                  else if byte_in "224" "239" c0 then 3
                  else
                    match s3 with
                    | [] => 0
                    | c3 :: _ => if is_cont c3 then 4 else 0
                    end
              end
        end
  end.

(** [ValidString]: the text is a sequence of well-formed encodings. *)
Fixpoint valid (n : nat) (s : list ascii) : bool :=
  match s with
  | [] => true
  | _ :: _ =>
      match n with
      | O => false
      | S n' =>
          match width s with
          | O => false
          | w => valid n' (drop w s)
          end
      end
  end.

Definition ValidString (s : string) : bool :=
  valid (String.length s) (bytes s).

(** [RuneCountInString]: the number of decoding steps, a byte that
    starts no well-formed encoding counting for one. *)
Fixpoint count (n : nat) (s : list ascii) : N :=
  match s with
  | [] => 0
  | _ :: _ =>
      match n with
      | O => 0
      | S n' => 1 + count n' (drop (Nat.max 1 (width s)) s)
      end
  end.

Definition RuneCountInString (s : string) : N :=
  count (String.length s) (bytes s).

End utf8.

(** ** Package regexp *)

Module regexp.

(** The operators of [regexp/syntax] that the two patterns use. *)
Inductive Regexp : Type :=
| OpLiteral (c : ascii) (foldCase : bool)
| OpCharClass (cls : ascii -> bool)
| OpAnyCharNotNL
| OpBeginLine
| OpEndLine
| OpWordBoundary
| OpConcat (r1 r2 : Regexp)
| OpStar (r : Regexp)
| OpRepeat (min max : nat) (r : Regexp)
| OpCapture (r : Regexp).

(** A thread of the matcher: the text before the cursor (reversed), the
    text after it, and the text of capture group 1 if it is set. *)
Definition caps := option (list ascii).
Definition thread : Type := list ascii * list ascii * caps.
Definition cont := list ascii -> list ascii -> caps -> option thread.

Definition one_byte (f : ascii -> bool) (k : cont) : cont :=
  fun b a c =>
    match a with
    | x :: a' => if f x then k (x :: b) a' c else None
    | [] => None
    end.

(** One rune of the text against the literal byte [x] of a pattern under
    [(?i)], as the rune instruction with the fold flag does it: the bytes
    taken and the text after them.  The byte itself in either case, or
    the rune beyond ASCII of its orbit. *)
Definition fold_rune (x : ascii) (a : list ascii)
    : option (list ascii * list ascii) :=
  match a with
  | [] => None
  | y :: a' =>
      if fold_eqb x y then Some ([y], a')
      else
        match fold_variant x with
        | [] => None
        | v => (fun r => (v, r)) <$> strip_prefix v a
        end
  end.

Definition one_rune (x : ascii) (k : cont) : cont :=
  fun b a c =>
    match fold_rune x a with
    | Some (m, a') => k (rev m ++ b) a' c
    | None => None
    end.

Definition or_else (x y : option thread) : option thread :=
  match x with Some t => Some t | None => y end.

Definition at_begin_line (b : list ascii) : bool :=
  match b with [] => true | x :: _ => Ascii.eqb x newline end.

Definition at_end_line (a : list ascii) : bool :=
  match a with [] => true | x :: _ => Ascii.eqb x newline end.

(** Whether the byte next to the cursor is a word byte; [l] is the text
    after the cursor, or the reversed text before it. *)
Definition head_is_word (l : list ascii) : bool :=
  match l with [] => false | x :: _ => is_word x end.

(** The empty-width assertion [\b]. *)
Definition at_word_boundary (b a : list ascii) : bool :=
  xorb (head_is_word b) (head_is_word a).

Definition guard (t : bool) (k : cont) : cont :=
  fun b a c => if t then k b a c else None.

(** The bytes consumed between the cursor [b] and the later cursor [b']. *)
Definition consumed (b b' : list ascii) : list ascii :=
  rev (take (List.length b' - List.length b) b').

(** Backtracking match of [r] at the cursor, continuing with [k]; greedy
    operators try the longer alternative first.  A star stops iterating
    when an iteration consumes nothing. *)
Fixpoint run (r : Regexp) (k : cont) {struct r} : cont :=
  match r with
  | OpLiteral x false => one_byte (Ascii.eqb x) k
  | OpLiteral x true => one_rune x k
  | OpCharClass f => one_byte f k
  | OpAnyCharNotNL => one_byte (fun x => negb (Ascii.eqb x newline)) k
  | OpBeginLine => fun b a c => guard (at_begin_line b) k b a c
  | OpEndLine => fun b a c => guard (at_end_line a) k b a c
  | OpWordBoundary => fun b a c => guard (at_word_boundary b a) k b a c
  | OpConcat r1 r2 => run r1 (run r2 k)
  | OpStar r1 =>
      fun b a c =>
        (fix loop (fuel : nat) : cont :=
           fun b a c =>
             match fuel with
             | O => k b a c
             | S fuel' =>
                 or_else
                   (run r1
                      (fun b' a' c' =>
                         if Nat.ltb (List.length a') (List.length a) then loop fuel' b' a' c'
                         else None)
                      b a c)
                   (k b a c)
             end) (List.length a) b a c
  | OpRepeat lo hi r1 =>
      (fix rep (lo hi : nat) : cont :=
         match hi with
         | O => k
         | S hi' =>
             match lo with
             | S lo' => run r1 (rep lo' hi')
             | O => fun b a c => or_else (run r1 (rep O hi') b a c) (k b a c)
             end
         end) lo hi
  | OpCapture r1 =>
      fun b a c => run r1 (fun b' a' _ => k b' a' (Some (consumed b b'))) b a c
  end.

Definition accept : cont := fun b a c => Some (b, a, c).

(** Number of capture groups. *)
Fixpoint NumSubexp (re : Regexp) : nat :=
  match re with
  | OpCapture r => S (NumSubexp r)
  | OpConcat r1 r2 => NumSubexp r1 + NumSubexp r2
  | OpStar r => NumSubexp r
  | OpRepeat _ _ r => NumSubexp r
  | _ => O
  end.

(** The slice a successful match returns: the whole match, then the text
    of group 1 when the pattern has a group (the patterns of [main.go]
    have exactly one; more than one is outside this model). *)
Definition submatches (re : Regexp) (b b' : list ascii) (c : caps) : list string :=
  str (consumed b b')
  :: (if (NumSubexp re =? 0)%nat then [] else [str (default [] c)]).

(** Leftmost match: the first start position, from the left, at which the
    backtracking search succeeds. *)
Fixpoint search (re : Regexp) (b a : list ascii) : option (list string) :=
  match run re accept b a None with
  | Some (b', _, c) => Some (submatches re b b' c)
  | None =>
      match a with
      | [] => None
      | x :: a' => search re (x :: b) a'
      end
  end.

(** Method [FindStringSubmatch] of a compiled pattern: [None] is Go's nil
    slice. *)
Definition FindStringSubmatch (re : Regexp) (s : string) : option (list string) :=
  search re [] (bytes s).

(** The alternatives of a greedy star over a byte class, longest first:
    what [run] does on [OpStar] of a one-byte operator
    ([run_star_dot] below). *)
Fixpoint greedy (f : ascii -> bool) (k : cont) (b a : list ascii) (c : caps)
    : option thread :=
  match a with
  | x :: a' => if f x then or_else (greedy f k (x :: b) a' c) (k b a c) else k b a c
  | [] => k b a c
  end.

(** The limit of the parser on the number of runes of a pattern
    ([maxRunes] of [regexp/syntax]: 128 MB of runes of four bytes). *)
Definition maxRunes : N := 33554432.

(** A literal string, every byte matched as itself (what the parser makes
    of the output of [QuoteMeta]). *)
Fixpoint literal (foldCase : bool) (s : list ascii) (tl : Regexp) : Regexp :=
  match s with
  | [] => tl
  | x :: s' => OpConcat (OpLiteral x foldCase) (literal foldCase s' tl)
  end.

End regexp.

(** ** Package net *)

Module net.

Definition IPv4len : nat := 4.
Definition IPv6len : nat := 16.

(** An [IP] is a byte slice; [None] is the nil slice where it matters. *)
Definition IP := list Z.
Definition IPMask := list Z.

Record IPNet : Type := { IP_ : IP; Mask : IPMask }.

Definition digit_val (c : ascii) : Z := (Z.of_N (N_of_ascii c) - 48)%Z.

Definition hex_val (c : ascii) : option Z :=
  if is_digit c then Some (digit_val c)
  else if byte_in "a" "f" c then Some (Z.of_N (N_of_ascii c) - 97 + 10)%Z
  else if byte_in "A" "F" c then Some (Z.of_N (N_of_ascii c) - 65 + 10)%Z
  else None.

Definition is_dot (c : ascii) : bool := Ascii.eqb c ".".
Definition is_colon (c : ascii) : bool := Ascii.eqb c ":".

(** [parseIPv4Fields] of [net/netip]: the loop over the bytes of [s], with
    [prev] the byte before the current one ([None] at index 0). *)
Fixpoint parseIPv4Fields_loop (s : list ascii) (prev : option ascii)
    (val : Z) (pos digLen : nat) (fields : list Z) : option (list Z) :=
  match s with
  | [] => if (pos <? 3)%nat then None else Some (<[3%nat := val]> fields)
  | x :: s' =>
      if is_digit x then
        if (digLen =? 1)%nat && (val =? 0)%Z then None
        else
          let val' := (val * 10 + digit_val x)%Z in
          if (255 <? val')%Z then None
          else parseIPv4Fields_loop s' (Some x) val' pos (S digLen) fields
      else if is_dot x then
        match prev, s' with
        | None, _ => None
        | _, [] => None
        | Some y, _ :: _ =>
            if is_dot y then None
            else if (pos =? 3)%nat then None
            else parseIPv4Fields_loop s' (Some x) 0 (S pos) O (<[pos := val]> fields)
        end
      else None
  end.

Definition parseIPv4Fields (s : list ascii) : option (list Z) :=
  parseIPv4Fields_loop s None 0 O O [0; 0; 0; 0]%Z.

(** An address of [net/netip] without zone: four bytes or sixteen. *)
Inductive Addr : Type :=
| Addr4 (fields : list Z)
| Addr6 (ip : list Z).

Definition v4InV6Prefix : list Z := [0; 0; 0; 0; 0; 0; 0; 0; 0; 0; 255; 255]%Z.

Definition As16 (a : Addr) : list Z :=
  match a with
  | Addr4 f => v4InV6Prefix ++ f
  | Addr6 ip => ip
  end.

Definition BitLen (a : Addr) : nat :=
  match a with Addr4 _ => 32 | Addr6 _ => 128 end.

(** The hex group at the head of [s]: number of digits read and value;
    [None] on a fifth digit. *)
Fixpoint hex_group (s : list ascii) (off : nat) (acc : Z) : option (nat * Z) :=
  match s with
  | [] => Some (off, acc)
  | c :: s' =>
      match hex_val c with
      | None => Some (off, acc)
      | Some v =>
          let acc' := (acc * 16 + v)%Z in
          if (3 <? off)%nat then None
          else if (65535 <? acc')%Z then None
          else hex_group s' (S off) acc'
      end
  end.

(** End of [parseIPv6]: the whole string must be used; a short address
    has its ellipsis expanded, a full one must have none. *)
Definition parseIPv6_finish (s : list ascii) (i : nat) (ip : list Z)
    (ellipsis : option nat) : option Addr :=
  match s with
  | _ :: _ => None
  | [] =>
      if (i <? 16)%nat then
        match ellipsis with
        | None => None
        | Some e =>
            Some (Addr6 (take e ip ++ replicate (16 - i) 0%Z ++ take (i - e) (drop e ip)))
        end
      else
        match ellipsis with
        | Some _ => None
        | None => Some (Addr6 ip)
        end
  end.

(** The loop of [parseIPv6], one hex group per iteration; at most eight
    iterations since [i] grows by two each time. *)
Fixpoint parseIPv6_loop (fuel : nat) (s : list ascii) (i : nat) (ip : list Z)
    (ellipsis : option nat) : option Addr :=
  if (16 <=? i)%nat then parseIPv6_finish s i ip ellipsis
  else
    match fuel with
    | O => None
    | S fuel' =>
        match hex_group s O 0 with
        | None => None
        | Some (O, _) => None
        | Some (off, acc) =>
            match drop off s with
            | c :: rest =>
                if is_dot c then
                  if bool_decide (ellipsis = None) && negb (i =? 12)%nat then None
                  else if (16 <? i + 4)%nat then None
                  else
                    match parseIPv4Fields s with
                    | None => None
                    | Some f =>
                        parseIPv6_finish [] (i + 4)
                          (take i ip ++ f ++ drop (i + 4) ip) ellipsis
                    end
                else
                  let ip' := <[S i := Z.land acc 255]> (<[i := Z.shiftr acc 8]> ip) in
                  if negb (is_colon c) then None
                  else
                    match rest with
                    | [] => None
                    | c2 :: rest2 =>
                        if is_colon c2 then
                          match ellipsis with
                          | Some _ => None
                          | None =>
                              match rest2 with
                              | [] => parseIPv6_finish [] (i + 2) ip' (Some (i + 2)%nat)
                              | _ :: _ =>
                                  parseIPv6_loop fuel' rest2 (i + 2) ip' (Some (i + 2)%nat)
                              end
                          end
                        else parseIPv6_loop fuel' rest (i + 2) ip' ellipsis
                    end
            | [] =>
                let ip' := <[S i := Z.land acc 255]> (<[i := Z.shiftr acc 8]> ip) in
                parseIPv6_finish [] (i + 2) ip' ellipsis
            end
        end
    end.

Definition parseIPv6 (s : list ascii) : option Addr :=
  let zero := replicate 16 0%Z in
  match s with
  | c1 :: c2 :: s' =>
      if is_colon c1 && is_colon c2 then
        match s' with
        | [] => Some (Addr6 zero)
        | _ :: _ => parseIPv6_loop 8 s' O zero (Some O)
        end
      else parseIPv6_loop 8 s O zero None
  | _ => parseIPv6_loop 8 s O zero None
  end.

(** [netip.ParseAddr], for the callers in [net], which reject every
    address with a zone: a string with a [%] has no result here. *)
Fixpoint ParseAddr_scan (s rest : list ascii) : option Addr :=
  match rest with
  | [] => None
  | c :: rest' =>
      if is_dot c then Addr4 <$> parseIPv4Fields s
      else if is_colon c then
        if existsb (Ascii.eqb "%") s then None else parseIPv6 s
      else if Ascii.eqb c "%" then None
      else ParseAddr_scan s rest'
  end.

Definition ParseAddr (s : list ascii) : option Addr := ParseAddr_scan s s.

(** [net.ParseIP]: the 16-byte form of the address, or nil. *)
Definition ParseIP (s : string) : option IP := As16 <$> ParseAddr (bytes s).

Definition big : Z := 16777215.

(** [dtoi]: decimal to integer; number, bytes consumed, success. *)
Fixpoint dtoi_loop (s : list ascii) (n : Z) (i : nat) : Z * nat * bool :=
  match s with
  | c :: s' =>
      if is_digit c then
        let n' := (n * 10 + digit_val c)%Z in
        if (big <=? n')%Z then (big, i, false) else dtoi_loop s' n' (S i)
      else if (i =? 0)%nat then (0%Z, O, false) else (n, i, true)
  | [] => if (i =? 0)%nat then (0%Z, O, false) else (n, i, true)
  end.

Definition dtoi (s : list ascii) : Z * nat * bool := dtoi_loop s 0 O.

(** [CIDRMask ones bits]. *)
Fixpoint CIDRMask_bytes (l : nat) (n : nat) : list Z :=
  match l with
  | O => []
  | S l' =>
      if (8 <=? n)%nat then 255%Z :: CIDRMask_bytes l' (n - 8)
      else Z.land (Z.lnot (Z.shiftr 255 (Z.of_nat n))) 255 :: CIDRMask_bytes l' O
  end.

Definition CIDRMask (ones bits : nat) : IPMask := CIDRMask_bytes (bits / 8) ones.

Definition allFF (b : list Z) : bool := forallb (Z.eqb 255) b.
Definition isZeros (b : list Z) : bool := forallb (Z.eqb 0) b.

Definition bytesEqual (x y : list Z) : bool := bool_decide (x = y).

(** Method [Mask] of [IP]; [None] is nil. *)
Definition IP_Mask (ip : IP) (mask : IPMask) : option IP :=
  let mask :=
    if (List.length mask =? IPv6len)%nat && (List.length ip =? IPv4len)%nat
       && allFF (take 12 mask)
    then drop 12 mask else mask in
  let ip :=
    if (List.length mask =? IPv4len)%nat && (List.length ip =? IPv6len)%nat
       && bytesEqual (take 12 ip) v4InV6Prefix
    then drop 12 ip else ip in
  if (List.length ip =? List.length mask)%nat
  then Some (zip_with Z.land ip mask)
  else None.

(** Method [To4] of [IP]. *)
Definition To4 (ip : IP) : option IP :=
  if (List.length ip =? IPv4len)%nat then Some ip
  else if (List.length ip =? IPv6len)%nat && isZeros (take 10 ip)
          && bool_decide (ip !! 10%nat = Some 255%Z)
          && bool_decide (ip !! 11%nat = Some 255%Z)
  then Some (take 4 (drop 12 ip))
  else None.

Fixpoint index_slash (s : list ascii) (pre : list ascii) : option (list ascii * list ascii) :=
  match s with
  | [] => None
  | c :: s' =>
      if Ascii.eqb c "/" then Some (rev pre, s') else index_slash s' (c :: pre)
  end.

(** [net.ParseCIDR], the network only ([parseKeywords] drops the address);
    [None] stands for the [ParseError]. *)
Definition ParseCIDR (s : string) : option IPNet :=
  match index_slash (bytes s) [] with
  | None => None
  | Some (addr, mask) =>
      match ParseAddr addr with
      | None => None
      | Some ipAddr =>
          let '(n, i, ok) := dtoi mask in
          if negb ok || negb (i =? List.length mask)%nat
             || (n <? 0)%Z || (Z.of_nat (BitLen ipAddr) <? n)%Z
          then None
          else
            let m := CIDRMask (Z.to_nat n) (BitLen ipAddr) in
            Some {| IP_ := default [] (IP_Mask (As16 ipAddr) m); Mask := m |}
      end
  end.

(** [networkNumberAndMask]; [None] is the pair of nils. *)
Definition networkNumberAndMask (n : IPNet) : option (IP * IPMask) :=
  let ip :=
    match To4 (IP_ n) with
    | Some ip4 => Some ip4
    | None => if (List.length (IP_ n) =? IPv6len)%nat then Some (IP_ n) else None
    end in
  match ip with
  | None => None
  | Some ip =>
      if (List.length (Mask n) =? IPv4len)%nat then
        if (List.length ip =? IPv4len)%nat then Some (ip, Mask n) else None
      else if (List.length (Mask n) =? IPv6len)%nat then
        if (List.length ip =? IPv4len)%nat then Some (ip, drop 12 (Mask n))
        else Some (ip, Mask n)
      else None
  end.

(** Method [Contains] of [IPNet]. *)
Definition Contains (n : IPNet) (ip : IP) : bool :=
  let '(nn, m) := default ([], []) (networkNumberAndMask n) in
  let ip := match To4 ip with Some x => x | None => ip end in
  if negb (List.length ip =? List.length nn)%nat then false
  else forallb (fun '(a, b) => Z.eqb a b)
         (zip (zip_with Z.land nn m) (zip_with Z.land ip m)).

End net.

(** ** Package strings *)

Module strings.

Fixpoint HasPrefix_bytes (s prefix : list ascii) : bool :=
  match prefix, s with
  | [], _ => true
  | p :: prefix', x :: s' => Ascii.eqb p x && HasPrefix_bytes s' prefix'
  | _ :: _, [] => false
  end.

Fixpoint Contains_bytes (s substr : list ascii) : bool :=
  HasPrefix_bytes s substr
  || match s with
     | [] => false
     | _ :: s' => Contains_bytes s' substr
     end.

(** [strings.Contains]. *)
Definition Contains (s substr : string) : bool :=
  Contains_bytes (bytes s) (bytes substr).

(** White space as [unicode.IsSpace] has it, in UTF-8: the ASCII ones,
    U+0085, U+00A0, U+1680, U+2000..U+200A, U+2028, U+2029, U+202F,
    U+205F and U+3000. *)
Definition asciiSpace (c : ascii) : bool :=
  byte_in "009" "013" c || Ascii.eqb c " ".

Definition space2 (c1 c2 : ascii) : bool :=
  Ascii.eqb c1 "194" && (Ascii.eqb c2 "133" || Ascii.eqb c2 "160").

Definition space3 (c1 c2 c3 : ascii) : bool :=
  (Ascii.eqb c1 "225" && Ascii.eqb c2 "154" && Ascii.eqb c3 "128")
  || (Ascii.eqb c1 "226" && Ascii.eqb c2 "128"
      && (byte_in "128" "138" c3 || Ascii.eqb c3 "168" || Ascii.eqb c3 "169"
          || Ascii.eqb c3 "175"))
  || (Ascii.eqb c1 "226" && Ascii.eqb c2 "129" && Ascii.eqb c3 "159")
  || (Ascii.eqb c1 "227" && Ascii.eqb c2 "128" && Ascii.eqb c3 "128").

Fixpoint TrimLeft_space (s : list ascii) : list ascii :=
  match s with
  | c1 :: s1 =>
      if asciiSpace c1 then TrimLeft_space s1
      else
        match s1 with
        | c2 :: s2 =>
            if space2 c1 c2 then TrimLeft_space s2
            else
              match s2 with
              | c3 :: s3 => if space3 c1 c2 c3 then TrimLeft_space s3 else s
              | [] => s
              end
        | [] => s
        end
  | [] => []
  end.

(** The same scan from the end, on the reversed string. *)
Fixpoint TrimRight_space_rev (r : list ascii) : list ascii :=
  match r with
  | c1 :: r1 =>
      if asciiSpace c1 then TrimRight_space_rev r1
      else
        match r1 with
        | c2 :: r2 =>
            if space2 c2 c1 then TrimRight_space_rev r2
            else
              match r2 with
              | c3 :: r3 => if space3 c3 c2 c1 then TrimRight_space_rev r3 else r
              | [] => r
              end
        | [] => r
        end
  | [] => []
  end.

Definition TrimSpace_bytes (s : list ascii) : list ascii :=
  rev (TrimRight_space_rev (rev (TrimLeft_space s))).

(** [strings.TrimSpace]. *)
Definition TrimSpace (s : string) : string := str (TrimSpace_bytes (bytes s)).

End strings.

(** ** main.go *)

(** Modelled from the spec: the configuration record [keyword], declared
    in a file of the repository that is not part of the sources at hand;
    [parseKeywords] reads its fields [Keyword], [Type] and [Exceptions]. *)
Record keyword : Type := {
  Keyword : string;
  Type_ : string;
  Exceptions : list string
}.

(** The struct [keywordType]; the two pointer fields are options. *)
Record keywordType : Type := {
  regexp : option regexp.Regexp;
  keywordType_ : string;
  ipNet : option net.IPNet;
  exceptions : list string
}.

(** The pattern of the cidr case: [(\b(?:\d{1,3}\.){3}\d{1,3}\b)]. *)
Definition ip_pattern : regexp.Regexp :=
  let d13 := regexp.OpRepeat 1 3 (regexp.OpCharClass is_digit) in
  regexp.OpCapture
    (regexp.OpConcat regexp.OpWordBoundary
       (regexp.OpConcat
          (regexp.OpRepeat 3 3 (regexp.OpConcat d13 (regexp.OpLiteral "." false)))
          (regexp.OpConcat d13 regexp.OpWordBoundary))).

(** The pattern of the default case, spaced out:
    [(?im) ^ ( .* \b KEYWORD .* ) $], with the quoted keyword for
    [KEYWORD]: under [i] literals fold case, under [m] the anchors are
    those of a line. *)
Definition keyword_pattern (kw : string) : regexp.Regexp :=
  regexp.OpConcat regexp.OpBeginLine
    (regexp.OpConcat
       (regexp.OpCapture
          (regexp.OpConcat (regexp.OpStar regexp.OpAnyCharNotNL)
             (regexp.OpConcat regexp.OpWordBoundary
                (regexp.literal true (bytes kw) (regexp.OpStar regexp.OpAnyCharNotNL)))))
       regexp.OpEndLine).

(** The call of [regexp.MustCompile] of the default case; [None] is its
    panic.  [QuoteMeta] escapes the ASCII punctuation of the keyword and
    leaves every other byte as it is, so that the parser reads the
    keyword as a literal, rune by rune; it fails on a byte that starts no
    UTF-8 encoding (invalid UTF-8) and on more runes than [maxRunes]
    (expression too large). *)
Definition MustCompile_keyword (kw : string) : option regexp.Regexp :=
  if utf8.ValidString kw && (utf8.RuneCountInString kw <=? regexp.maxRunes)%N
  then Some (keyword_pattern kw)
  else None.

Fixpoint checkExceptions (s : string) (exceptions : list string) : bool :=
  match exceptions with
  | [] => false
  | x :: rest => if strings.Contains s x then true else checkExceptions s rest
  end.

(** The body of the loop of [checkKeywords] for the entry [(k, v)], on the
    locals [status] and [found]; [None] is a run-time panic (index out of
    range on [s[1]], nil [ipNet]). *)
Definition checkKeywords_body (body : string) (k : string) (v : keywordType)
    (st : bool * gmap string string) : option (bool * gmap string string) :=
  match regexp v with
  | None => Some st
  | Some re =>
      match regexp.FindStringSubmatch re body with
      | None => Some st
      | Some s =>
          s1 ← s !! 1%nat;
          let match_ := strings.TrimSpace s1 in
          if String.eqb (keywordType_ v) "ip" then
            match net.ParseIP match_ with
            | None => Some st
            | Some ip =>
                n ← ipNet v;
                if net.Contains n ip then Some (true, <[k := match_]> st.2)
                else Some st
            end
          else
            if negb (checkExceptions match_ (exceptions v))
            then Some (true, <[k := match_]> st.2)
            else Some st
      end
  end.

(** The [range] loop over the entries in the order [entries]. *)
Fixpoint checkKeywords_range (body : string) (entries : list (string * keywordType))
    (st : bool * gmap string string) : option (bool * gmap string string) :=
  match entries with
  | [] => Some st
  | (k, v) :: rest =>
      st' ← checkKeywords_body body k v st;
      checkKeywords_range body rest st'
  end.

(** [checkKeywords]: Go leaves the iteration order of a map open; the
    model takes the order of [map_to_list], and [checkKeywords_any_order]
    below shows that the order is immaterial. *)
Definition checkKeywords (body : string) (keywords : gmap string keywordType)
    : option (bool * gmap string string) :=
  checkKeywords_range body (map_to_list keywords) (false, ∅).

(** The loop of [parseKeywords] on the map built so far: [Some (inr _)]
    is the rule set, [Some (inl _)] the error with its message, [None]
    the panic of [regexp.MustCompile] in the default case.  The pattern
    of the cidr case is a constant that compiles. *)
Fixpoint parseKeywords_loop (k : list keyword) (keywords : gmap string keywordType)
    : option (string + gmap string keywordType) :=
  match k with
  | [] => Some (inr keywords)
  | k0 :: rest =>
      if String.eqb (Type_ k0) "cidr" then
        match net.ParseCIDR (Keyword k0) with
        | None =>
            Some (inl ("could not parse cidr " +:+ Keyword k0
                       +:+ ": invalid CIDR address: " +:+ Keyword k0))
        | Some n =>
            parseKeywords_loop rest
              (<[Keyword k0 :=
                   {| regexp := Some ip_pattern;
                      keywordType_ := "ip";
                      ipNet := Some n;
                      exceptions := Exceptions k0 |}]> keywords)
        end
      else
        match MustCompile_keyword (Keyword k0) with
        | None => None
        | Some re =>
            parseKeywords_loop rest
              (<[Keyword k0 :=
                   {| regexp := Some re;
                      keywordType_ := "string";
                      ipNet := None;
                      exceptions := Exceptions k0 |}]> keywords)
        end
  end.

Definition parseKeywords (k : list keyword)
    : option (string + gmap string keywordType) :=
  parseKeywords_loop k ∅.

(** The step of [main] that compiles the configured keywords:
    [log.Fatalf] ends the process on an error, and a panic of
    [parseKeywords] is a panic of [main]. *)
Inductive startup : Type :=
| Fatal (msg : string)
| Started (keywords : gmap string keywordType)
| Panic.

Definition main_parseKeywords (configKeywords : list keyword) : startup :=
  match parseKeywords configKeywords with
  | None => Panic
  | Some (inl err) => Fatal ("could not parse keywords: " +:+ err)
  | Some (inr keywords) => Started keywords
  end.

(** *** The seen-set and the poll cycle of [main] *)

(** Instants and durations are integers (nanoseconds), as [time.Time] and
    [time.Duration] compare and add. *)
Definition second : Z := 1000000000.
Definition minute : Z := 60 * second.

(** The map [alredyChecked]: the test [_, ok := alredyChecked[key]], the
    assignment [alredyChecked[key] = time.Now()], and the clean-up loop
    that deletes every entry [v] with [v.Before(threshold)]. *)
Definition seen_has (alredyChecked : gmap string Z) (key : string) : bool :=
  bool_decide (is_Some (alredyChecked !! key)).

Definition seen_mark (alredyChecked : gmap string Z) (key : string) (now : Z)
    : gmap string Z :=
  <[key := now]> alredyChecked.

Definition seen_evict (threshold : Z) (alredyChecked : gmap string Z)
    : gmap string Z :=
  filter (fun kv => ¬ (kv.2 < threshold)%Z) alredyChecked.

(** The test and the assignment as the item loop combines them. *)
Definition seen_visit (alredyChecked : gmap string Z) (key : string) (now : Z)
    : gmap string Z :=
  if seen_has alredyChecked key then alredyChecked
  else seen_mark alredyChecked key now.

Section Controller.

(** Declared in files of the repository that are not at hand, and taken
    as parameters: the type [paste] with its field [Key], the function
    [fetchPasteList] and the method [fetch].  Both calls are given the
    instant at which they start and answer with their result and the
    instant at which they return. *)
Variable paste : Type.
Variable Key : paste -> string.
Variable fetchPasteList : Z -> (string + list paste) * Z.
Variable fetch : paste -> gmap string keywordType -> Z -> (string + option paste) * Z.

(** What the loop of [main] does to the outside, in order. *)
Inductive event : Type :=
| EvSleep (d : Z)
| EvList
| EvFetch (key : string)
| EvError (msg : string)
| EvOutput (p : paste).

Record loop_state : Type := {
  lastCheck : Z;
  alredyChecked : gmap string Z;
  now : Z;
  events : list event
}.

Definition emit (e : event) (st : loop_state) : loop_state :=
  {| lastCheck := lastCheck st; alredyChecked := alredyChecked st;
     now := now st; events := events st ++ [e] |}.

Definition advance (t : Z) (st : loop_state) : loop_state :=
  {| lastCheck := lastCheck st; alredyChecked := alredyChecked st;
     now := t; events := events st |}.

Definition with_seen (m : gmap string Z) (st : loop_state) : loop_state :=
  {| lastCheck := lastCheck st; alredyChecked := m;
     now := now st; events := events st |}.

Definition sleep (d : Z) (st : loop_state) : loop_state :=
  advance (now st + d) (emit (EvSleep d) st).

(** The body of [for _, p := range pastes]. *)
Definition visit (keywords : gmap string keywordType) (st : loop_state) (p : paste)
    : loop_state :=
  if seen_has (alredyChecked st) (Key p) then st
  else
    let st := with_seen (seen_mark (alredyChecked st) (Key p) (now st)) st in
    let '(res, t) := fetch p keywords (now st) in
    let st := advance t (emit (EvFetch (Key p)) st) in
    let st :=
      match res with
      | inl err => emit (EvError ("fetch: " +:+ err)) st
      | inr (Some p2) => emit (EvOutput p2) st
      | inr None => st
      end in
    sleep second st.

Definition visit_all (keywords : gmap string keywordType) (st : loop_state)
    (pastes : list paste) : loop_state :=
  foldl (visit keywords) st pastes.

(** The head of an iteration: sleep until a minute after the last check,
    then stamp [lastCheck]. *)
Definition wait (st : loop_state) : loop_state :=
  let sleepTime := (lastCheck st + minute - now st)%Z in
  let st := if (0 <? sleepTime)%Z then sleep sleepTime st else st in
  {| lastCheck := now st; alredyChecked := alredyChecked st;
     now := now st; events := events st |}.

(** One iteration of the endless loop of [main]; on a failed listing the
    [continue] skips the item loop and the clean-up. *)
Definition cycle (keywords : gmap string keywordType) (st : loop_state) : loop_state :=
  let st := wait st in
  let '(res, t) := fetchPasteList (now st) in
  let st := advance t (emit EvList st) in
  match res with
  | inl err => emit (EvError ("fetchPasteList: " +:+ err)) st
  | inr pastes =>
      let st := visit_all keywords st pastes in
      let threshold := (now st + - 10 * minute)%Z in
      with_seen (seen_evict threshold (alredyChecked st)) st
  end.

Definition is_fetch_of (key : string) (e : event) : bool :=
  match e with EvFetch k => String.eqb k key | _ => false end.

Definition is_fetch (e : event) : bool :=
  match e with EvFetch _ => true | _ => false end.

Definition is_error (e : event) : bool :=
  match e with EvError _ => true | _ => false end.

(** The events a step adds to the trace. *)
Definition new_events (before after : loop_state) : list event :=
  drop (List.length (events before)) (events after).

(** Number of fetch calls for [key] among some events. *)
Definition fetches (key : string) (evs : list event) : nat :=
  List.length (List.filter (is_fetch_of key) evs).

End Controller.

Arguments EvSleep {paste} d.
Arguments EvList {paste}.
Arguments EvFetch {paste} key.
Arguments EvError {paste} msg.
Arguments EvOutput {paste} p.
Arguments lastCheck {paste} l.
Arguments alredyChecked {paste} l.
Arguments now {paste} l.
Arguments events {paste} l.
Arguments emit {paste} e st.
Arguments advance {paste} t st.
Arguments with_seen {paste} m st.
Arguments sleep {paste} d st.
Arguments wait {paste} st.
Arguments visit {paste} Key fetch keywords st p.
Arguments visit_all {paste} Key fetch keywords st pastes.
Arguments cycle {paste} Key fetchPasteList fetch keywords st.
Arguments is_fetch_of {paste} key e.
Arguments is_fetch {paste} e.
Arguments is_error {paste} e.
Arguments new_events {paste} before after.
Arguments fetches {paste} key evs.

(** ** Notions the statements below are written in *)

Definition not_newline (x : ascii) : bool := negb (Ascii.eqb x newline).

(** A keyword without newline bytes. *)
Definition one_line (kw : list ascii) : bool := forallb not_newline kw.

(** The lines of a text: the pieces between newline bytes. *)
Fixpoint split_lines (s : list ascii) : list (list ascii) :=
  match s with
  | [] => [[]]
  | c :: s' =>
      if Ascii.eqb c newline then [] :: split_lines s'
      else
        match split_lines s' with
        | l :: ls => (c :: l) :: ls
        | [] => [[c]]
        end
  end.

Definition lines (body : string) : list string := str <$> split_lines (bytes body).

(** [s] starts with [kw] up to case, as [(?i)] folds the letters of a
    7-bit keyword: the text taken and the text after it. *)
Fixpoint fold_strip (kw s : list ascii) : option (list ascii * list ascii) :=
  match kw with
  | [] => Some ([], s)
  | p :: kw' =>
      '(m, s') ← regexp.fold_rune p s;
      '(ms, s'') ← fold_strip kw' s';
      Some (m ++ ms, s'')
  end.

(** [kw] is a prefix of [s] up to case. *)
Definition fold_prefix (kw s : list ascii) : bool :=
  bool_decide (is_Some (fold_strip kw s)).


(** [kw] occurs, up to case, at or after the cursor with a word boundary
    right in front of it. *)
Fixpoint keyword_at (kw b a : list ascii) : bool :=
  (regexp.at_word_boundary b a && fold_prefix kw a)
  || match a with
     | [] => false
     | x :: a' => keyword_at kw (x :: b) a'
     end.


(** The line contains the keyword, compared without regard to case, at
    a place where a word boundary precedes it. *)
Definition line_has_keyword (kw line : string) : bool :=
  keyword_at (bytes kw) [] (bytes line).

(** The first line of the body that has the keyword at a word boundary. *)
Definition first_keyword_line (kw body : string) : option string :=
  List.find (line_has_keyword kw) (lines body).

(** The digits at the head of [a], and what comes after them. *)
Fixpoint digits (a : list ascii) : list ascii * list ascii :=
  match a with
  | c :: a' =>
      if is_digit c then let '(d, r) := digits a' in (c :: d, r) else ([], a)
  | [] => ([], [])
  end.

(** A run of one to three digits at the head of [a] that no further digit
    follows, and what comes after it. *)
Definition octet (a : list ascii) : option (list ascii * list ascii) :=
  let '(d, r) := digits a in
  if (1 <=? List.length d)%nat && (List.length d <=? 3)%nat
  then Some (d, r) else None.

Definition expect_dot (a : list ascii) : option (list ascii) :=
  match a with
  | c :: a' => if Ascii.eqb c "." then Some a' else None
  | [] => None
  end.

(** A dotted quad that starts at the cursor: four octets separated by
    single dots, with no word byte right before or right after. *)
Definition quad_here (b a : list ascii) : option (list ascii) :=
  if regexp.head_is_word b then None
  else
    '(d1, r) ← octet a; r ← expect_dot r;
    '(d2, r) ← octet r; r ← expect_dot r;
    '(d3, r) ← octet r; r ← expect_dot r;
    '(d4, r) ← octet r;
    if regexp.head_is_word r then None
    else Some (d1 ++ "." :: d2 ++ "." :: d3 ++ "." :: d4)%char.

Fixpoint first_quad_from (b a : list ascii) : option (list ascii) :=
  match quad_here b a with
  | Some q => Some q
  | None =>
      match a with
      | [] => None
      | x :: a' => first_quad_from (x :: b) a'
      end
  end.

(** The leftmost dotted quad of the body. *)
Definition first_dotted_quad (body : string) : option string :=
  str <$> first_quad_from [] (bytes body).

(** Whether [q] is a dotted quad by itself. *)
Definition is_dotted_quad (q : string) : bool :=
  bool_decide (quad_here [] (bytes q) = Some (bytes q)).

(** What one rule contributes to the result of [checkKeywords]: the
    recorded text if any; the outer [None] is a panic. *)
Definition rule_match (body : string) (v : keywordType) : option (option string) :=
  '(_, found) ← checkKeywords_body body "" v (false, ∅);
  Some (found !! "").

(** The recorded text of a rule, none if the rule does not match (or
    panics). *)
Definition recorded (body : string) (v : keywordType) : option string :=
  mjoin (rule_match body v).

(** The two shapes of rule that [parseKeywords] stores under the key [k]. *)
Definition cidr_rule (n : net.IPNet) (exc : list string) : keywordType :=
  {| regexp := Some ip_pattern; keywordType_ := "ip";
     ipNet := Some n; exceptions := exc |}.

Definition literal_rule (k : string) (exc : list string) : keywordType :=
  {| regexp := Some (keyword_pattern k); keywordType_ := "string";
     ipNet := None; exceptions := exc |}.

Definition compiled (k : string) (v : keywordType) : Prop :=
  (∃ n exc, net.ParseCIDR k = Some n ∧ v = cidr_rule n exc)
  ∨ (∃ exc, v = literal_rule k exc).

(** Whether [net.ParseCIDR] reads [s] as an IPv4 network (four-byte
    mask) rather than an IPv6 one. *)
Definition is_ipv4_cidr (s : string) : bool :=
  match net.ParseCIDR s with
  | Some n => (List.length (net.Mask n) =? net.IPv4len)%nat
  | None => false
  end.

(** The rule [v] with another list of exceptions. *)
Definition with_exceptions (v : keywordType) (exc : list string) : keywordType :=
  {| regexp := regexp v; keywordType_ := keywordType_ v;
     ipNet := ipNet v; exceptions := exc |}.

(** A continuation that fails whenever a digit follows a digit: what
    comes after each [\d{1,3}] of the cidr pattern. *)
Definition rejects_digit (K : regexp.cont) : Prop :=
  ∀ y b x a c, is_digit y = true → is_digit x = true → K (y :: b) (x :: a) c = None.

(** Whether [regexp.MustCompile] accepts the pattern of the definition:
    always in the cidr case; in the default case when the keyword is
    valid UTF-8 of at most [maxRunes] runes. *)
Definition pattern_compiles (d : keyword) : bool :=
  String.eqb (Type_ d) "cidr"
  || (utf8.ValidString (Keyword d)
      && (utf8.RuneCountInString (Keyword d) <=? regexp.maxRunes)%N).

(** The rule a definition compiles to; [None] when its cidr keyword does
    not parse or the pattern of its keyword does not compile. *)
Definition compile_rule (d : keyword) : option keywordType :=
  if String.eqb (Type_ d) "cidr"
  then (fun n => cidr_rule n (Exceptions d)) <$> net.ParseCIDR (Keyword d)
  else (fun _ => literal_rule (Keyword d) (Exceptions d))
         <$> MustCompile_keyword (Keyword d).

(** The last definition of the configuration with keyword [k]. *)
Definition last_definition (k : string) (defs : list keyword) : option keyword :=
  last (filter (fun d => Keyword d = k) defs).

(** Whether a trace is a sequence of item blocks: a fetch, at most one
    message (error or output), then the one-second sleep. *)
Fixpoint paced {paste : Type} (evs : list (event paste)) : bool :=
  match evs with
  | [] => true
  | EvFetch _ :: EvSleep d :: rest => (d =? second)%Z && paced rest
  | EvFetch _ :: EvError _ :: EvSleep d :: rest => (d =? second)%Z && paced rest
  | EvFetch _ :: EvOutput _ :: EvSleep d :: rest => (d =? second)%Z && paced rest
  | _ => false
  end.

(** ** Sample configurations and feeds *)

Definition net10 : net.IPNet :=
  {| net.IP_ := [10; 0; 0; 0]%Z; net.Mask := [255; 0; 0; 0]%Z |}.

Definition cidr_defs : list keyword :=
  [ {| Keyword := "10.0.0.0/8"; Type_ := "cidr"; Exceptions := [] |} ].

Definition cidr_rules : gmap string keywordType :=
  {[ "10.0.0.0/8" := cidr_rule net10 [] ]}.

Definition password_defs : list keyword :=
  [ {| Keyword := "password"; Type_ := "literal"; Exceptions := ["example.com"] |} ].

Definition password_rules : gmap string keywordType :=
  {[ "password" := literal_rule "password" ["example.com"] ]}.

Definition bare_password_defs : list keyword :=
  [ {| Keyword := "password"; Type_ := "literal"; Exceptions := [] |} ].

Definition bare_password_rules : gmap string keywordType :=
  {[ "password" := literal_rule "password" [] ]}.

Definition net_2001_db8 : net.IPNet :=
  {| net.IP_ := [32; 1; 13; 184; 0; 0; 0; 0; 0; 0; 0; 0; 0; 0; 0; 0]%Z;
     net.Mask := [255; 255; 255; 255; 0; 0; 0; 0; 0; 0; 0; 0; 0; 0; 0; 0]%Z |}.

Definition ipv6_defs : list keyword :=
  [ {| Keyword := "2001:db8::/32"; Type_ := "cidr"; Exceptions := [] |} ].

Definition broken_defs : list keyword :=
  [ {| Keyword := "10.0.0.0/8"; Type_ := "cidr"; Exceptions := [] |};
    {| Keyword := "10.0.0.0/40"; Type_ := "cidr"; Exceptions := [] |} ].

(** A feed whose items are their own keys: a listing with a repeated
    key, and one that fails. *)
Definition sample_list (t : Z) : (string + list string) * Z :=
  (inr ["a"; "b"; "a"], (t + 1)%Z).

Definition failing_list (t : Z) : (string + list string) * Z :=
  (inl "timeout", (t + 1)%Z).

Definition sample_fetch (p : string) (_ : gmap string keywordType) (t : Z)
    : (string + option string) * Z :=
  (inr None, (t + 1)%Z).

Definition start_state : loop_state string :=
  {| lastCheck := 0; alredyChecked := ∅; now := 0; events := [] |}.

(** A state, 700 seconds in, whose seen-set holds an entry stamped at 0
    and one stamped at 600 seconds. *)
Definition stale_state : loop_state string :=
  {| lastCheck := 0;
     alredyChecked := {[ "old" := 0%Z; "a" := 600000000000%Z ]};
     now := 700000000000; events := [] |}.

(** A configuration whose first keyword is the single byte 255, which is
    no UTF-8, followed by a cidr definition that does not parse. *)
Definition invalid_utf8_defs : list keyword :=
  [ {| Keyword := String "255" ""; Type_ := "literal"; Exceptions := [] |};
    {| Keyword := "bogus"; Type_ := "cidr"; Exceptions := [] |} ].

(** A configuration that defines a keyword twice, one with two distinct
    keywords in either order, a rule whose exceptions hold the empty
    string, and the rule set of an IPv6 network. *)
Definition redefined_defs : list keyword :=
  [ {| Keyword := "password"; Type_ := "literal"; Exceptions := ["example.com"] |};
    {| Keyword := "password"; Type_ := "literal"; Exceptions := [] |} ].

Definition mixed_defs : list keyword :=
  [ {| Keyword := "10.0.0.0/8"; Type_ := "cidr"; Exceptions := [] |};
    {| Keyword := "password"; Type_ := "literal"; Exceptions := ["example.com"] |} ].

Definition mixed_defs_swapped : list keyword :=
  [ {| Keyword := "password"; Type_ := "literal"; Exceptions := ["example.com"] |};
    {| Keyword := "10.0.0.0/8"; Type_ := "cidr"; Exceptions := [] |} ].

Definition mixed_rules : gmap string keywordType :=
  {[ "10.0.0.0/8" := cidr_rule net10 [];
     "password" := literal_rule "password" ["example.com"] ]}.

Definition muted_rules : gmap string keywordType :=
  {[ "password" := literal_rule "password" [""] ]}.

Definition ipv6_rules : gmap string keywordType :=
  {[ "2001:db8::/32" := cidr_rule net_2001_db8 [] ]}.

(** * Properties *)

#[local] Arguments Ascii.eqb : simpl never.
#[local] Arguments is_digit : simpl never.
#[local] Arguments is_word : simpl never.

(** Closed goals that hold by running the definitions. *)
Ltac by_evaluation := vm_compute; reflexivity.

(** Membership in a list given in full. *)
Ltac by_membership := apply list_elem_of_In; vm_compute; tauto.

(** ** The library models on sample inputs *)

Example ip_pattern_needs_boundaries :
  regexp.FindStringSubmatch ip_pattern "1234.1.1.1 1.1.1.1234 a1.1.1.1 1.1.1.1.1 x"
  = Some ["1.1.1.1"; "1.1.1.1"].
Proof. by_evaluation. Qed.

Example ip_pattern_takes_any_digits :
  regexp.FindStringSubmatch ip_pattern "host 999.1.1.001, port 80"
  = Some ["999.1.1.001"; "999.1.1.001"].
Proof. by_evaluation. Qed.

Example keyword_pattern_takes_the_line :
  regexp.FindStringSubmatch (keyword_pattern "pass.word") "user: x
  My PASS.WORD is y  
pass.word again"
  = Some ["  My PASS.WORD is y  "; "  My PASS.WORD is y  "].
Proof. by_evaluation. Qed.

Example keyword_pattern_dot_is_literal :
  regexp.FindStringSubmatch (keyword_pattern "pass.word") "my passXword" = None.
Proof. by_evaluation. Qed.

Example keyword_pattern_folds_long_s :
  regexp.FindStringSubmatch (keyword_pattern "password") "paſſword one
password two"
  = Some ["paſſword one"; "paſſword one"].
Proof. by_evaluation. Qed.

Example keyword_pattern_folds_kelvin :
  regexp.FindStringSubmatch (keyword_pattern "Kelvin") "at 273 Kelvin"
  = Some ["at 273 Kelvin"; "at 273 Kelvin"]
  ∧ regexp.FindStringSubmatch (keyword_pattern "Kelvin") "at 273 kelvin"
    = Some ["at 273 kelvin"; "at 273 kelvin"]
  ∧ regexp.FindStringSubmatch (keyword_pattern "pass") "paß" = None.
Proof. repeat split; by_evaluation. Qed.

Example ValidString_samples :
  utf8.ValidString "paſſword K €" = true
  ∧ utf8.RuneCountInString "paſſword K €" = 12%N
  ∧ utf8.ValidString (String "255" "") = false
  ∧ utf8.ValidString (String "192" (String "128" "")) = false
  ∧ utf8.ValidString (String "237" (String "160" (String "128" ""))) = false
  ∧ utf8.ValidString (String "226" (String "130" "")) = false
  ∧ utf8.RuneCountInString (String "226" (String "130" "")) = 2%N.
Proof. repeat split; by_evaluation. Qed.

Example MustCompile_panics_on_invalid_utf8 :
  MustCompile_keyword (String "255" "") = None
  ∧ parseKeywords invalid_utf8_defs = None
  ∧ main_parseKeywords invalid_utf8_defs = Panic
  ∧ parseKeywords (rev invalid_utf8_defs)
    = Some (inl "could not parse cidr bogus: invalid CIDR address: bogus").
Proof. repeat split; by_evaluation. Qed.

Example ParseCIDR_masks_the_address :
  net.ParseCIDR "10.1.2.3/12"
  = Some {| net.IP_ := [10; 0; 0; 0]%Z; net.Mask := [255; 240; 0; 0]%Z |}.
Proof. by_evaluation. Qed.

Example ParseCIDR_rejects :
  net.ParseCIDR "10.0.0.0/33" = None ∧ net.ParseCIDR "010.0.0.0/8" = None
  ∧ net.ParseCIDR "10.0.0.0" = None ∧ net.ParseCIDR "10.0.0/8" = None
  ∧ net.ParseCIDR "1:2:3:4:5:6:7:8:9/64" = None.
Proof. repeat split; by_evaluation. Qed.

Example ParseIP_rejects :
  net.ParseIP "10.5.5.05" = None ∧ net.ParseIP "256.1.1.1" = None
  ∧ net.ParseIP "10.5.5" = None.
Proof. repeat split; by_evaluation. Qed.

Example ParseIP_v4_in_v6 :
  net.ParseIP "10.5.5.5"
  = Some [0; 0; 0; 0; 0; 0; 0; 0; 0; 0; 255; 255; 10; 5; 5; 5]%Z.
Proof. by_evaluation. Qed.

Example Contains_v6_network :
  (n ← net.ParseCIDR "::/0"; ip ← net.ParseIP "10.5.5.5"; Some (net.Contains n ip))
  = Some false.
Proof. by_evaluation. Qed.

Example TrimSpace_sample :
  strings.TrimSpace (String "009" (String "194" (String "160" " a b
"))) = "a b".
Proof. by_evaluation. Qed.

(** ** The matcher on the two patterns *)

Section Matcher.
Import regexp.

Lemma or_else_None x : or_else x None = x.
Proof. by destruct x. Qed.

Lemma consumed_app b l : consumed b (rev l ++ b) = l.
Proof.
  unfold consumed. rewrite length_app, length_rev.
  replace (List.length l + List.length b - List.length b)%nat with (List.length (rev l)) by (rewrite length_rev; lia).
  rewrite take_app_length. apply rev_involutive.
Qed.

Lemma is_digit_word x : is_digit x = true → is_word x = true.
Proof. intros H. unfold is_word. by rewrite H. Qed.

Lemma is_digit_not_dot x : is_digit x = true → Ascii.eqb "." x = false.
Proof.
  intros H. destruct (Ascii.eqb_spec "."%char x) as [<-|]; [|done].
  by vm_compute in H.
Qed.

Lemma one_byte_cons f k b x a c :
  one_byte f k b (x :: a) c = if f x then k (x :: b) a c else None.
Proof. reflexivity. Qed.

Lemma run_d13 K b a c :
  rejects_digit K →
  run (OpRepeat 1 3 (OpCharClass is_digit)) K b a c =
    match octet a with
    | Some (d, r) => K (rev d ++ b) r c
    | None => None
    end.
Proof.
  intros HK. unfold octet. cbn [run].
  destruct a as [|x1 a]; [done|]. cbn [digits]. rewrite one_byte_cons.
  destruct (is_digit x1) eqn:E1; [|done].
  destruct a as [|x2 a]; [done|]. cbn [digits]. rewrite one_byte_cons.
  destruct (is_digit x2) eqn:E2; [|done].
  rewrite (HK x1 b x2 a c E1 E2), or_else_None.
  destruct a as [|x3 a]; [done|]. cbn [digits]. rewrite one_byte_cons.
  destruct (is_digit x3) eqn:E3; [|done].
  rewrite (HK x2 _ x3 a c E2 E3), or_else_None.
  destruct a as [|x4 a]; [done|]. cbn [digits].
  destruct (is_digit x4) eqn:E4; [|done].
  rewrite (HK x3 _ x4 a c E3 E4).
  by destruct (digits a).
Qed.

Lemma run_star_dot K b a c :
  run (OpStar OpAnyCharNotNL) K b a c = greedy not_newline K b a c.
Proof.
  cbn [run].
  generalize (Nat.le_refl (List.length a)).
  generalize (List.length a) at 2 3 as fuel.
  intros fuel. revert b a c. induction fuel as [|fuel IH]; intros b a c Hlen.
  - destruct a; [done|simpl in Hlen; lia].
  - destruct a as [|x a]; [done|].
    rewrite one_byte_cons. cbn [greedy]. fold (not_newline x).
    destruct (not_newline x); [|done].
    assert (Nat.ltb (List.length a) (List.length (x :: a)) = true) as ->
      by (apply Nat.ltb_lt; simpl; lia).
    rewrite IH by (simpl in Hlen; lia). done.
Qed.

#[local] Arguments run : simpl never.

Lemma digits_app a : a = (digits a).1 ++ (digits a).2.
Proof.
  induction a as [|x a IH]; [done|]. simpl.
  destruct (is_digit x); [|done]. destruct (digits a) as [d r]. simpl in *. by f_equal.
Qed.

Lemma digits_all a : forallb is_digit (digits a).1 = true.
Proof.
  induction a as [|x a IH]; [done|]. simpl.
  destruct (is_digit x) eqn:E; [|done]. destruct (digits a) as [d r]. simpl in *.
  by rewrite E.
Qed.

Lemma octet_Some a d r :
  octet a = Some (d, r) →
  a = d ++ r ∧ (∃ y d', rev d = y :: d' ∧ is_digit y = true) ∧ head_is_word a = true.
Proof.
  unfold octet. pose proof (digits_app a) as Happ. pose proof (digits_all a) as Hall.
  destruct (digits a) as [d0 r0]. simpl in *.
  destruct (_ && _) eqn:E; [|done]. intros [= <- <-].
  split; [done|]. apply andb_prop in E as [E1 _].
  destruct d0 as [|x d0]; [done|]. split.
  - destruct (rev (x :: d0)) as [|y d'] eqn:Er.
    + apply (f_equal (@List.length _)) in Er. rewrite length_rev in Er. simpl in Er. lia.
    + exists y, d'. split; [done|].
      assert (In y (x :: d0)) as Hin by (apply in_rev; rewrite Er; by left).
      rewrite forallb_forall in Hall. by apply Hall.
  - subst a. simpl in *. apply andb_prop in Hall as [Hx _]. by apply is_digit_word.
Qed.

Lemma octet_not_word a : head_is_word a = false → octet a = None.
Proof.
  intros H. destruct (octet a) as [[d r]|] eqn:E; [|done].
  apply octet_Some in E as (_ & _ & E). congruence.
Qed.

Lemma rejects_dot K : rejects_digit (one_byte (Ascii.eqb ".") K).
Proof.
  intros y b x a c _ Hx. rewrite one_byte_cons. by rewrite is_digit_not_dot.
Qed.

Lemma rejects_boundary K :
  rejects_digit (fun b a c => guard (at_word_boundary b a) K b a c).
Proof.
  intros y b x a c Hy Hx. unfold guard, at_word_boundary. simpl.
  by rewrite !is_digit_word.
Qed.

Lemma run_concat r1 r2 K : run (OpConcat r1 r2) K = run r1 (run r2 K).
Proof. reflexivity. Qed.

Lemma run_word_boundary K b a c :
  run OpWordBoundary K b a c = if at_word_boundary b a then K b a c else None.
Proof. reflexivity. Qed.

Lemma run_capture r K b a c :
  run (OpCapture r) K b a c =
    run r (fun b' a' _ => K b' a' (Some (consumed b b'))) b a c.
Proof. reflexivity. Qed.

Lemma run_repeat_3 r K : run (OpRepeat 3 3 r) K = run r (run r (run r K)).
Proof. reflexivity. Qed.

Lemma run_literal_byte x K : run (OpLiteral x false) K = one_byte (Ascii.eqb x) K.
Proof. reflexivity. Qed.

Lemma run_octet_dot K b a c :
  run (OpConcat (OpRepeat 1 3 (OpCharClass is_digit)) (OpLiteral "." false)) K b a c =
    '(d, r) ← octet a; r' ← expect_dot r; K ("."%char :: rev d ++ b) r' c.
Proof.
  rewrite run_concat, run_literal_byte.
  rewrite run_d13 by apply rejects_dot.
  destruct (octet a) as [[d r]|] eqn:E; [|done]. simpl.
  destruct r as [|x r]; [done|]. rewrite one_byte_cons. simpl.
  rewrite (Ascii.eqb_sym x ".").
  destruct (Ascii.eqb_spec "."%char x) as [<-|]; done.
Qed.

Lemma rev_quad (d1 d2 d3 d4 b : list ascii) :
  rev d4 ++ "."%char :: rev d3 ++ "."%char :: rev d2 ++ "."%char :: rev d1 ++ b =
  rev (d1 ++ "."%char :: d2 ++ "."%char :: d3 ++ "."%char :: d4) ++ b.
Proof.
  rewrite !rev_app_distr. simpl. rewrite !rev_app_distr. simpl.
  rewrite !rev_app_distr. simpl. by rewrite <- !app_assoc.
Qed.

Lemma run_ip_pattern b a :
  match quad_here b a with
  | Some q => ∃ r, run ip_pattern accept b a None = Some (rev q ++ b, r, Some q)
  | None => run ip_pattern accept b a None = None
  end.
Proof.
  unfold ip_pattern, quad_here.
  rewrite run_capture, run_concat, run_word_boundary, run_concat, run_repeat_3.
  unfold at_word_boundary.
  destruct (head_is_word a) eqn:Ea.
  2:{ rewrite (octet_not_word a Ea).
      destruct (head_is_word b); simpl; [|done].
      by rewrite run_octet_dot, (octet_not_word a Ea). }
  destruct (head_is_word b) eqn:Eb; simpl; [done|].
  rewrite run_octet_dot.
  destruct (octet a) as [[d1 r]|] eqn:E1; simpl; [|done].
  destruct (expect_dot r) as [r1|] eqn:Ed1; simpl; [|done].
  rewrite run_octet_dot.
  destruct (octet r1) as [[d2 r']|] eqn:E2; simpl; [|done].
  destruct (expect_dot r') as [r2|] eqn:Ed2; simpl; [|done].
  rewrite run_octet_dot.
  destruct (octet r2) as [[d3 r'']|] eqn:E3; simpl; [|done].
  destruct (expect_dot r'') as [r3|] eqn:Ed3; simpl; [|done].
  rewrite run_concat.
  rewrite run_d13 by apply rejects_boundary.
  destruct (octet r3) as [[d4 r4]|] eqn:E4; simpl; [|done].
  apply octet_Some in E4 as (_ & (y & d' & Hy & Hdy) & _).
  rewrite run_word_boundary.
  unfold at_word_boundary.
  match goal with |- context [head_is_word (rev d4 ++ ?t)] =>
    assert (head_is_word (rev d4 ++ t) = true) as ->
      by (rewrite Hy; simpl; by apply is_digit_word) end.
  destruct (head_is_word r4); simpl; [done|].
  exists r4. unfold accept. rewrite rev_quad. by rewrite consumed_app.
Qed.

Lemma search_ip_pattern b a :
  search ip_pattern b a = (q ← first_quad_from b a; Some [str q; str q]).
Proof.
  revert b. induction a as [|x a IH]; intros b; simpl.
  - pose proof (run_ip_pattern b []) as H.
    destruct (quad_here b []) as [q|].
    + destruct H as [r ->]. simpl. unfold submatches. by rewrite consumed_app.
    + by rewrite H.
  - pose proof (run_ip_pattern b (x :: a)) as H.
    destruct (quad_here b (x :: a)) as [q|].
    + destruct H as [r ->]. simpl. unfold submatches. by rewrite consumed_app.
    + rewrite H. apply IH.
Qed.

Lemma FindStringSubmatch_ip_pattern body :
  FindStringSubmatch ip_pattern body = (q ← first_dotted_quad body; Some [q; q]).
Proof.
  unfold FindStringSubmatch, first_dotted_quad. rewrite search_ip_pattern.
  by destruct (first_quad_from [] (bytes body)).
Qed.

Lemma run_begin_line K b a c :
  run OpBeginLine K b a c = if at_begin_line b then K b a c else None.
Proof. reflexivity. Qed.

Lemma run_end_line K b a c :
  run OpEndLine K b a c = if at_end_line a then K b a c else None.
Proof. reflexivity. Qed.

(** Facts about single bytes, by enumeration. *)
Lemma fold_eqb_newline x : fold_eqb x newline = Ascii.eqb x newline.
Proof. by destruct x as [[] [] [] [] [] [] [] []]. Qed.

(** Text that ends the current line: nothing, or a newline first. *)
Lemma at_end_line_cases rest :
  at_end_line rest = true → rest = [] ∨ ∃ a', rest = newline :: a'.
Proof.
  destruct rest as [|x a']; [by left|]. simpl. intros H.
  apply Ascii.eqb_eq in H as ->. right. by eexists.
Qed.

Lemma no_word_at_end_of_line rest : at_end_line rest = true → head_is_word rest = false.
Proof. intros [->|[a' ->]]%at_end_line_cases; done. Qed.

Lemma no_word_at_begin_of_line b : at_begin_line b = true → head_is_word b = false.
Proof.
  destruct b as [|x b]; [done|]. simpl. intros H. by apply Ascii.eqb_eq in H as ->.
Qed.

Lemma strip_prefix_app v a r : strip_prefix v a = Some r → a = v ++ r.
Proof.
  revert a. induction v as [|x v IH]; intros a; simpl; [by intros [= ->]|].
  destruct a as [|y a]; [done|]. destruct (Ascii.eqb_spec x y) as [->|]; [|done].
  intros H. by rewrite (IH a H).
Qed.

Lemma strip_prefix_line v l rest :
  forallb not_newline v = true → at_end_line rest = true →
  strip_prefix v (l ++ rest) = (fun r => r ++ rest) <$> strip_prefix v l.
Proof.
  intros Hv Hrest. revert l. induction v as [|x v IH]; intros l; [done|].
  simpl in Hv. apply andb_prop in Hv as [Hx Hv].
  destruct l as [|y l]; simpl.
  - destruct rest as [|z rest]; [done|]. simpl in Hrest. apply Ascii.eqb_eq in Hrest as ->.
    unfold not_newline in Hx. by destruct (Ascii.eqb x newline).
  - destruct (Ascii.eqb x y); [by apply IH|done].
Qed.

Lemma fold_variant_one_line p : forallb not_newline (fold_variant p) = true.
Proof. unfold fold_variant. by destruct (fold_eqb p "s"), (fold_eqb p "k"). Qed.


Lemma fold_rune_app p a m a' : fold_rune p a = Some (m, a') → a = m ++ a'.
Proof.
  unfold fold_rune. destruct a as [|y a]; [done|].
  destruct (fold_eqb p y); [by intros [= <- <-]|].
  destruct (fold_variant p) as [|x v]; [done|].
  destruct (strip_prefix (x :: v) (y :: a)) as [r|] eqn:E; [|done].
  intros [= <- <-]. by apply strip_prefix_app.
Qed.

Lemma fold_rune_line p l rest :
  not_newline p = true → at_end_line rest = true →
  fold_rune p (l ++ rest) = (fun mr => (mr.1, mr.2 ++ rest)) <$> fold_rune p l.
Proof.
  intros Hp Hrest. pose proof (fold_variant_one_line p) as Hv.
  destruct l as [|y l].
  - rewrite app_nil_l. unfold fold_rune at 2. cbn [fmap option_fmap option_map].
    destruct rest as [|z rest]; [done|]. simpl in Hrest. apply Ascii.eqb_eq in Hrest as ->.
    unfold fold_rune. rewrite fold_eqb_newline.
    unfold not_newline in Hp. destruct (Ascii.eqb p newline); [done|].
    destruct (fold_variant p) as [|x v]; [done|].
    pose proof (strip_prefix_line (x :: v) [] (newline :: rest) Hv eq_refl) as H.
    cbn [app] in H. by rewrite H.
  - unfold fold_rune. cbn [app]. destruct (fold_eqb p y); [done|].
    destruct (fold_variant p) as [|x v]; [done|].
    change (y :: l ++ rest) with ((y :: l) ++ rest).
    rewrite (strip_prefix_line (x :: v) (y :: l) rest Hv Hrest).
    by destruct (strip_prefix (x :: v) (y :: l)).
Qed.

Lemma fold_strip_app kw a m a' : fold_strip kw a = Some (m, a') → a = m ++ a'.
Proof.
  revert a m. induction kw as [|p kw IH]; intros a m; cbn [fold_strip].
  - by intros [= <- <-].
  - destruct (fold_rune p a) as [[m1 a1]|] eqn:E1; [|done]. cbn.
    destruct (fold_strip kw a1) as [[m2 a2]|] eqn:E2; [|done]. cbn.
    intros [= <- <-]. apply fold_rune_app in E1 as ->. apply IH in E2 as ->.
    by rewrite <- app_assoc.
Qed.

Lemma fold_strip_line kw l rest :
  one_line kw = true → at_end_line rest = true →
  fold_strip kw (l ++ rest) = (fun mr => (mr.1, mr.2 ++ rest)) <$> fold_strip kw l.
Proof.
  intros Hkw Hrest. revert l. induction kw as [|p kw IH]; intros l; [done|].
  simpl in Hkw. apply andb_prop in Hkw as [Hp Hkw]. cbn [fold_strip].
  rewrite fold_rune_line by done.
  destruct (fold_rune p l) as [[m1 l1]|]; [|done]. cbn.
  rewrite IH by done. by destruct (fold_strip kw l1) as [[m2 l2]|].
Qed.

Lemma fold_prefix_line kw l rest :
  one_line kw = true → at_end_line rest = true →
  fold_prefix kw (l ++ rest) = fold_prefix kw l.
Proof.
  intros Hkw Hrest. unfold fold_prefix. rewrite fold_strip_line by done.
  apply bool_decide_ext. by rewrite fmap_is_Some.
Qed.

Lemma run_fold_literal x K b a c :
  run (OpLiteral x true) K b a c =
    match fold_rune x a with
    | Some (m, a') => K (rev m ++ b) a' c
    | None => None
    end.
Proof. reflexivity. Qed.

Lemma run_literal kw tl K b a c :
  run (literal true kw tl) K b a c =
    match fold_strip kw a with
    | Some (m, a') => run tl K (rev m ++ b) a' c
    | None => None
    end.
Proof.
  revert b a. induction kw as [|p kw IH]; intros b a; [done|].
  cbn [literal fold_strip]. rewrite run_concat, run_fold_literal.
  destruct (fold_rune p a) as [[m1 a1]|]; [|done]. cbn. rewrite IH.
  destruct (fold_strip kw a1) as [[m2 a2]|]; [|done]. cbn.
  by rewrite rev_app_distr, <- app_assoc.
Qed.

(** A greedy [.*] whose longest alternative succeeds takes the rest of
    the line. *)
Lemma greedy_to_end_of_line K b l rest c :
  forallb not_newline l = true → at_end_line rest = true →
  is_Some (K (rev l ++ b) rest c) →
  greedy not_newline K b (l ++ rest) c = K (rev l ++ b) rest c.
Proof.
  intros Hl Hrest. revert b. induction l as [|x l IH]; intros b HK.
  - simpl in *. destruct rest as [|y rest]; [done|]. simpl in Hrest.
    simpl. unfold not_newline. by rewrite Hrest.
  - simpl in Hl. apply andb_prop in Hl as [Hx Hl].
    cbn [app greedy]. rewrite Hx. simpl in HK. rewrite <- app_assoc in HK. simpl in HK.
    rewrite IH by done. simpl. rewrite <- app_assoc. simpl.
    by destruct HK as [t ->].
Qed.

(** The keyword pattern after its first [.*], at a cursor inside the
    line [l1 ++ l2] that began at [b0]. *)
Lemma run_keyword_tail kw b0 l1 l2 rest c :
  one_line kw = true → forallb not_newline l2 = true → at_end_line rest = true →
  run OpWordBoundary
    (run (literal true kw (OpStar OpAnyCharNotNL))
       (fun b' a' _ => run OpEndLine accept b' a' (Some (consumed b0 b'))))
    (rev l1 ++ b0) (l2 ++ rest) c =
  if at_word_boundary (rev l1 ++ b0) (l2 ++ rest) && fold_prefix kw (l2 ++ rest)
  then Some (rev (l1 ++ l2) ++ b0, rest, Some (l1 ++ l2)) else None.
Proof.
  intros Hkw Hl2 Hrest. rewrite run_word_boundary.
  destruct (at_word_boundary _ _); [|done]. cbn [andb].
  rewrite run_literal. unfold fold_prefix. rewrite fold_strip_line by done.
  destruct (fold_strip kw l2) as [[m r]|] eqn:Hp; cbn [fmap option_fmap option_map fst snd].
  2:{ rewrite bool_decide_eq_false_2; [done|]. by intros [? ?]. }
  rewrite bool_decide_eq_true_2 by (by eexists).
  apply fold_strip_app in Hp as ->.
  rewrite run_star_dot.
  assert (rev r ++ rev m ++ rev l1 ++ b0 = rev (l1 ++ m ++ r) ++ b0) as Hrev.
  { rewrite !rev_app_distr. by rewrite <- !app_assoc. }
  assert (forallb not_newline r = true) as Hd.
  { rewrite forallb_app in Hl2. by apply andb_prop in Hl2 as [_ Hd]. }
  rewrite greedy_to_end_of_line; rewrite ?Hrev, ?run_end_line, ?Hrest; try done.
  by rewrite consumed_app.
Qed.

Lemma at_word_boundary_line b l rest :
  at_end_line rest = true → at_word_boundary b (l ++ rest) = at_word_boundary b l.
Proof.
  intros H. unfold at_word_boundary. destruct l as [|x l]; [|done].
  rewrite app_nil_l. by rewrite (no_word_at_end_of_line rest H).
Qed.

Lemma greedy_keyword kw b0 l1 l2 rest c :
  one_line kw = true → forallb not_newline l2 = true → at_end_line rest = true →
  greedy not_newline
    (run OpWordBoundary
       (run (literal true kw (OpStar OpAnyCharNotNL))
          (fun b' a' _ => run OpEndLine accept b' a' (Some (consumed b0 b')))))
    (rev l1 ++ b0) (l2 ++ rest) c =
  if keyword_at kw (rev l1 ++ b0) l2
  then Some (rev (l1 ++ l2) ++ b0, rest, Some (l1 ++ l2)) else None.
Proof.
  intros Hkw Hl2 Hrest. revert l1. induction l2 as [|x l2 IH]; intros l1.
  - pose proof (run_keyword_tail kw b0 l1 [] rest c Hkw eq_refl Hrest) as Ht.
    cbn [keyword_at]. rewrite orb_false_r.
    rewrite <- (at_word_boundary_line _ [] rest Hrest), <- (fold_prefix_line kw [] rest Hkw Hrest).
    rewrite <- Ht. simpl. destruct rest as [|y rest]; [done|].
    simpl in Hrest. cbn [greedy]. unfold not_newline at 1. by rewrite Hrest.
  - pose proof (run_keyword_tail kw b0 l1 (x :: l2) rest c Hkw Hl2 Hrest) as Ht.
    simpl in Hl2. apply andb_prop in Hl2 as [Hx Hl2].
    cbn [app greedy]. rewrite Hx.
    specialize (IH Hl2 (l1 ++ [x])).
    rewrite rev_app_distr in IH. simpl in IH. rewrite <- app_assoc in IH. simpl in IH.
    rewrite IH. simpl in Ht. rewrite Ht.
    cbn [keyword_at].
    rewrite <- (at_word_boundary_line _ (x :: l2) rest Hrest).
    rewrite <- (fold_prefix_line kw (x :: l2) rest Hkw Hrest). simpl.
    destruct (keyword_at kw (x :: rev l1 ++ b0) l2); simpl.
    + by rewrite orb_true_r.
    + by rewrite orb_false_r.
Qed.

Lemma keyword_at_context kw b b' a :
  head_is_word b = head_is_word b' → keyword_at kw b a = keyword_at kw b' a.
Proof.
  revert b b'. induction a as [|x a IH]; intros b b' H;
    cbn [keyword_at]; unfold at_word_boundary; rewrite H; [done|].
  by rewrite (IH (x :: b) (x :: b')).
Qed.

(** The keyword pattern tried at the start of a line. *)
Lemma run_keyword_pattern kw b l rest :
  one_line (bytes kw) = true → forallb not_newline l = true → at_end_line rest = true →
  at_begin_line b = true →
  run (keyword_pattern kw) accept b (l ++ rest) None =
    if keyword_at (bytes kw) [] l then Some (rev l ++ b, rest, Some l) else None.
Proof.
  intros Hkw Hl Hrest Hb. unfold keyword_pattern.
  rewrite run_concat, run_begin_line, Hb, run_concat, run_capture, run_concat, run_star_dot, run_concat.
  pose proof (greedy_keyword (bytes kw) b [] l rest None Hkw Hl Hrest) as H.
  simpl in H. rewrite H.
  rewrite (keyword_at_context _ b []); [done|].
  by rewrite no_word_at_begin_of_line.
Qed.

Lemma run_keyword_pattern_inside kw b a :
  at_begin_line b = false → run (keyword_pattern kw) accept b a None = None.
Proof.
  intros Hb. unfold keyword_pattern. by rewrite run_concat, run_begin_line, Hb.
Qed.

(** Cursors inside a line are no line start: the search moves on. *)
Lemma search_inside_line kw l b rest :
  at_begin_line b = false → forallb not_newline l = true →
  search (keyword_pattern kw) b (l ++ rest) = search (keyword_pattern kw) (rev l ++ b) rest.
Proof.
  revert b. induction l as [|x l IH]; intros b Hb Hl; [done|].
  simpl in Hl. apply andb_prop in Hl as [Hx Hl].
  cbn [app search]. rewrite run_keyword_pattern_inside by done.
  rewrite IH; [simpl; by rewrite <- app_assoc| |done].
  simpl. unfold not_newline in Hx. by destruct (Ascii.eqb x newline).
Qed.

Lemma search_failed_line kw l b rest :
  forallb not_newline l = true → at_end_line rest = true →
  run (keyword_pattern kw) accept b (l ++ rest) None = None →
  search (keyword_pattern kw) b (l ++ rest) =
    match rest with
    | [] => None
    | x :: a' => search (keyword_pattern kw) (x :: rev l ++ b) a'
    end.
Proof.
  intros Hl Hrest Hrun. destruct l as [|x l].
  - simpl in *. destruct rest as [|y rest]; simpl; by rewrite Hrun.
  - simpl in Hl. apply andb_prop in Hl as [Hx Hl].
    cbn [app search]. cbn [app] in Hrun. rewrite Hrun.
    assert (at_begin_line (x :: b) = false) as Hb.
    { simpl. unfold not_newline in Hx. by destruct (Ascii.eqb x newline). }
    rewrite search_inside_line by done.
    assert (at_begin_line (rev l ++ x :: b) = false) as Hb'.
    { destruct (rev l) as [|y r] eqn:Er; [done|]. simpl.
      assert (In y l) as Hin by (apply in_rev; rewrite Er; by left).
      rewrite forallb_forall in Hl. specialize (Hl y Hin).
      unfold not_newline in Hl. by destruct (Ascii.eqb y newline). }
    simpl. rewrite <- app_assoc. simpl.
    destruct rest as [|y rest]; simpl; by rewrite run_keyword_pattern_inside.
Qed.

(** A text is its first line followed by the rest. *)
Lemma split_lines_first a :
  ∃ l rest, a = l ++ rest ∧ forallb not_newline l = true ∧
    ((rest = [] ∧ split_lines a = [l]) ∨
     (∃ a', rest = newline :: a' ∧ split_lines a = l :: split_lines a')).
Proof.
  induction a as [|x a IH].
  - exists [], []. split; [done|]. split; [done|]. by left.
  - simpl. destruct (Ascii.eqb_spec x newline) as [->|Hx].
    + exists [], (newline :: a). split; [done|]. split; [done|]. right. by exists a.
    + destruct IH as (l & rest & -> & Hl & Hcase).
      exists (x :: l), rest. split; [done|]. split.
      * simpl. rewrite Hl. unfold not_newline.
        by destruct (Ascii.eqb_spec x newline).
      * destruct Hcase as [[-> ->]|(a' & -> & ->)]; [by left|]. right. by exists a'.
Qed.

Lemma NumSubexp_literal f s tl : NumSubexp (literal f s tl) = NumSubexp tl.
Proof. induction s as [|x s IH]; [done|]. simpl. apply IH. Qed.

Lemma submatches_keyword_pattern kw b l c :
  submatches (keyword_pattern kw) b (rev l ++ b) (Some c) = [str l; str c].
Proof.
  unfold submatches. rewrite consumed_app.
  replace (NumSubexp (keyword_pattern kw)) with 1%nat; [done|].
  unfold keyword_pattern. simpl. by rewrite NumSubexp_literal.
Qed.

Lemma search_keyword_lines kw n :
  one_line (bytes kw) = true →
  ∀ a b, (List.length a <= n)%nat → at_begin_line b = true →
  search (keyword_pattern kw) b a =
    (l ← List.find (keyword_at (bytes kw) []) (split_lines a); Some [str l; str l]).
Proof.
  intros Hkw. induction n as [|n IH]; intros a b Hlen Hb.
  - destruct a; [|simpl in Hlen; lia].
    pose proof (run_keyword_pattern kw b [] [] Hkw eq_refl eq_refl Hb) as Hr.
    simpl in Hr. simpl. by rewrite Hr.
  - destruct (split_lines_first a) as (l & rest & -> & Hl & Hcase).
    assert (at_end_line rest = true) as Hrest.
    { destruct Hcase as [[-> _]|(a' & -> & _)]; [done|]. simpl. apply Ascii.eqb_refl. }
    pose proof (run_keyword_pattern kw b l rest Hkw Hl Hrest Hb) as Hr.
    destruct (keyword_at (bytes kw) [] l) eqn:Hk.
    + assert (List.find (keyword_at (bytes kw) []) (split_lines (l ++ rest)) = Some l) as ->.
      { destruct Hcase as [[_ ->]|(a' & _ & ->)]; simpl; by rewrite Hk. }
      destruct (l ++ rest); simpl; rewrite Hr; by rewrite submatches_keyword_pattern.
    + rewrite search_failed_line by done.
      destruct Hcase as [[-> ->]|(a' & -> & ->)]; simpl; rewrite Hk; [done|].
      apply IH; [|simpl; apply Ascii.eqb_refl].
      rewrite length_app in Hlen. simpl in Hlen. lia.
Qed.

Lemma find_fmap_str (f : list ascii → bool) (L : list (list ascii)) :
  List.find (fun s => f (bytes s)) (str <$> L) = str <$> List.find f L.
Proof.
  induction L as [|l L IH]; [done|]. simpl.
  rewrite list_ascii_of_string_of_list_ascii. destruct (f l); [done|apply IH].
Qed.

Lemma FindStringSubmatch_keyword_pattern kw body :
  one_line (bytes kw) = true →
  FindStringSubmatch (keyword_pattern kw) body =
    (l ← first_keyword_line kw body; Some [l; l]).
Proof.
  intros Hkw. unfold FindStringSubmatch, first_keyword_line, lines, line_has_keyword.
  rewrite (search_keyword_lines kw _ Hkw (bytes body) [] (Nat.le_refl _) eq_refl).
  rewrite (find_fmap_str (keyword_at (bytes kw) [])).
  by destruct (List.find _ _).
Qed.

(** A digit is no white space and occurs in no UTF-8 encoding of one. *)
Lemma digit_no_space y :
  is_digit y = true →
  strings.asciiSpace y = false ∧
  (∀ c, strings.space2 y c = false) ∧ (∀ c, strings.space2 c y = false) ∧
  (∀ c d, strings.space3 y c d = false) ∧ (∀ c d, strings.space3 c d y = false).
Proof.
  intros H.
  assert (∃ n, (n < 10)%nat ∧ y = ascii_of_nat (48 + n)) as (n & Hn & ->).
  { exists (nat_of_ascii y - 48)%nat.
    destruct y as [[] [] [] [] [] [] [] []]; try discriminate H; vm_compute; by split; [lia|]. }
  do 10 (destruct n as [|n]; [
    split; [done|]; unfold strings.space2, strings.space3;
    repeat split; intros; rewrite ?andb_false_r; reflexivity |]).
  lia.
Qed.

Lemma TrimLeft_space_digit x s :
  is_digit x = true → strings.TrimLeft_space (x :: s) = x :: s.
Proof.
  intros (H1 & H2 & _ & H3 & _)%digit_no_space. cbn [strings.TrimLeft_space].
  rewrite H1. destruct s as [|c2 s]; [done|]. rewrite H2.
  destruct s as [|c3 s]; [done|]. by rewrite H3.
Qed.

Lemma TrimRight_space_rev_digit y r :
  is_digit y = true → strings.TrimRight_space_rev (y :: r) = y :: r.
Proof.
  intros (H1 & _ & H2 & _ & H3)%digit_no_space. cbn [strings.TrimRight_space_rev].
  rewrite H1. destruct r as [|c2 r]; [done|]. rewrite H2.
  destruct r as [|c3 r]; [done|]. by rewrite H3.
Qed.

(** Text that starts and ends with a digit is left alone by [TrimSpace]. *)
Lemma TrimSpace_bytes_digits x s y r :
  is_digit x = true → is_digit y = true → rev (x :: s) = y :: r →
  strings.TrimSpace_bytes (x :: s) = x :: s.
Proof.
  intros Hx Hy Hrev. unfold strings.TrimSpace_bytes.
  rewrite TrimLeft_space_digit by done. rewrite Hrev.
  rewrite TrimRight_space_rev_digit by done. rewrite <- Hrev. apply rev_involutive.
Qed.

Lemma octet_head a d r :
  octet a = Some (d, r) → ∃ x d', d = x :: d' ∧ is_digit x = true.
Proof.
  unfold octet. destruct a as [|x a]; [done|]. simpl.
  destruct (is_digit x) eqn:Hx; [|done]. destruct (digits a) as [d0 r0].
  destruct (_ && _); [|done]. intros [= <- <-]. by exists x, d0.
Qed.

Lemma quad_here_trim b a q :
  quad_here b a = Some q → strings.TrimSpace_bytes q = q.
Proof.
  unfold quad_here. destruct (head_is_word b); [done|].
  destruct (octet a) as [[d1 r1]|] eqn:E1; [|done]. simpl.
  destruct (expect_dot r1) as [r1'|]; [|done]. simpl.
  destruct (octet r1') as [[d2 r2]|]; [|done]. simpl.
  destruct (expect_dot r2) as [r2'|]; [|done]. simpl.
  destruct (octet r2') as [[d3 r3]|]; [|done]. simpl.
  destruct (expect_dot r3) as [r3'|]; [|done]. simpl.
  destruct (octet r3') as [[d4 r4]|] eqn:E4; [|done]. simpl.
  destruct (head_is_word r4); [done|]. intros [= <-].
  apply octet_head in E1 as (x & d1' & -> & Hx).
  apply octet_Some in E4 as (_ & (y & d' & Hy & Hdy) & _).
  eapply (TrimSpace_bytes_digits x _ y); [done|done|].
  pose proof (rev_quad (x :: d1') d2 d3 d4 []) as Hq. rewrite !app_nil_r in Hq.
  etrans; [symmetry; exact Hq|]. rewrite Hy. reflexivity.
Qed.

Lemma first_quad_from_trim b a q :
  first_quad_from b a = Some q → strings.TrimSpace_bytes q = q.
Proof.
  revert b. induction a as [|x a IH]; intros b; simpl.
  - destruct (quad_here b []) eqn:E; [|done]. intros [= <-]. by eapply quad_here_trim.
  - destruct (quad_here b (x :: a)) eqn:E.
    + intros [= <-]. by eapply quad_here_trim.
    + apply IH.
Qed.

Lemma first_dotted_quad_trim body q :
  first_dotted_quad body = Some q → strings.TrimSpace q = q.
Proof.
  unfold first_dotted_quad, strings.TrimSpace.
  destruct (first_quad_from [] (bytes body)) as [q0|] eqn:E; [|done].
  intros [= <-]. rewrite list_ascii_of_string_of_list_ascii.
  by rewrite (first_quad_from_trim _ _ _ E).
Qed.

#[local] Arguments FindStringSubmatch : simpl never.
#[local] Arguments strings.TrimSpace : simpl never.
#[local] Arguments net.ParseIP : simpl never.
#[local] Arguments net.Contains : simpl never.
#[local] Arguments String.eqb : simpl never.

(** What the loop body does to the locals, through [rule_match]. *)
Lemma checkKeywords_body_rule body k v st :
  checkKeywords_body body k v st =
    (r ← rule_match body v;
     Some (match r with Some m => (true, <[k := m]> st.2) | None => st end)).
Proof.
  unfold rule_match, checkKeywords_body.
  destruct (regexp v) as [re|]; [|done].
  destruct (FindStringSubmatch re body) as [s|]; [|done].
  destruct (s !! 1%nat) as [s1|]; [|done]. cbn [mbind option_bind].
  destruct (String.eqb (keywordType_ v) "ip").
  - destruct (net.ParseIP _); [|done]. destruct (ipNet v) as [n|]; [|done].
    cbn [mbind option_bind]. destruct (net.Contains n _); [|done].
    cbn [mbind option_bind snd]. by rewrite lookup_insert_eq.
  - destruct (checkExceptions _ _); [done|].
    cbn [negb mbind option_bind snd]. by rewrite lookup_insert_eq.
Qed.

Lemma checkKeywords_range_spec body l st :
  NoDup l.*1 →
  Forall (fun kv => is_Some (rule_match body kv.2)) l →
  ∃ status found,
    checkKeywords_range body l st = Some (status, found) ∧
    (∀ k, found !! k =
          match (list_to_map l : gmap string keywordType) !! k with
          | Some v => match recorded body v with Some m => Some m | None => st.2 !! k end
          | None => st.2 !! k
          end) ∧
    status = st.1 || existsb (fun kv => bool_decide (is_Some (recorded body kv.2))) l.
Proof.
  revert st. induction l as [|[k0 v0] l IH]; intros [status found] Hnd Hall.
  - exists status, found. split; [done|]. split; [done|]. simpl. by rewrite orb_false_r.
  - apply NoDup_cons in Hnd as [Hk0 Hnd]. apply Forall_cons in Hall as [[r Hr] Hall].
    cbn [checkKeywords_range]. rewrite checkKeywords_body_rule. simpl in Hr. rewrite Hr.
    cbn [mbind option_bind snd].
    destruct (IH (match r with Some m => (true, <[k0 := m]> found) | None => (status, found) end) Hnd Hall)
      as (status' & found' & -> & Hfound & Hstatus).
    exists status', found'. split; [done|]. split.
    + intros k. rewrite Hfound.
      change (list_to_map ((k0, v0) :: l) : gmap string keywordType)
        with (<[k0 := v0]> (list_to_map l : gmap string keywordType)).
      destruct (decide (k = k0)) as [->|Hne].
      * rewrite (lookup_insert_eq (list_to_map l)).
        rewrite (not_elem_of_list_to_map_1 l k0 Hk0).
        unfold recorded. rewrite Hr. simpl. destruct r; simpl; [|done].
        by rewrite lookup_insert_eq.
      * rewrite (lookup_insert_ne (list_to_map l)) by done.
        assert ((match r with Some m => (true, <[k0:=m]> found) | None => (status, found) end).2 !! k = found !! k) as Hf.
        { destruct r; simpl; [|done]. by rewrite lookup_insert_ne. }
        by rewrite Hf.
    + rewrite Hstatus. cbn [existsb snd].
      assert (recorded body v0 = r) as -> by (unfold recorded; by rewrite Hr).
      destruct r; simpl; [by destruct status|done].
Qed.

Lemma checkKeywords_any_order body (kws : gmap string keywordType) l :
  l ≡ₚ map_to_list kws →
  map_Forall (fun _ v => is_Some (rule_match body v)) kws →
  ∃ status found,
    checkKeywords_range body l (false, ∅) = Some (status, found) ∧
    (∀ k, found !! k = (v ← kws !! k; recorded body v)) ∧
    (status = true ↔ ∃ k v, kws !! k = Some v ∧ is_Some (recorded body v)).
Proof.
  intros Hperm Hall.
  assert (NoDup l.*1) as Hnd.
  { rewrite Hperm. apply NoDup_fst_map_to_list. }
  assert ((list_to_map l : gmap string keywordType) = kws) as Hmap.
  { rewrite (list_to_map_proper l (map_to_list kws) Hnd Hperm). apply list_to_map_to_list. }
  assert (∀ k v, (k, v) ∈ l ↔ kws !! k = Some v) as Hin.
  { intros k v. rewrite Hperm. apply elem_of_map_to_list. }
  destruct (checkKeywords_range_spec body l (false, ∅) Hnd) as (status & found & Hr & Hf & Hs).
  { apply Forall_forall. intros [k v] Hkv. apply Hin in Hkv. by apply (Hall k v). }
  exists status, found. split; [done|]. split.
  - intros k. rewrite Hf, Hmap. simpl. rewrite lookup_empty.
    destruct (kws !! k) as [v|]; simpl; [|done]. by destruct (recorded body v).
  - rewrite Hs. simpl. rewrite existsb_exists. split.
    + intros ([k v] & Hkv & Hb). exists k, v. split.
      * apply Hin. by apply list_elem_of_In.
      * by apply bool_decide_eq_true_1 in Hb.
    + intros (k & v & Hkv & Hb). exists (k, v). split.
      * apply list_elem_of_In. by apply Hin.
      * by apply bool_decide_eq_true_2.
Qed.

(** What the two shapes of rule contribute. *)
Lemma rule_match_cidr body n exc :
  rule_match body (cidr_rule n exc) =
    Some (q ← first_dotted_quad body; ip ← net.ParseIP q;
          if net.Contains n ip then Some q else None).
Proof.
  unfold rule_match, checkKeywords_body, cidr_rule. cbn [regexp keywordType_ ipNet].
  rewrite FindStringSubmatch_ip_pattern.
  destruct (first_dotted_quad body) as [q|] eqn:Eq; [|done].
  cbn [mbind option_bind]. change ([q; q] !! 1%nat) with (Some q).
  cbn [mbind option_bind]. rewrite (first_dotted_quad_trim body q Eq).
  change (String.eqb "ip" "ip") with true. cbv iota.
  destruct (net.ParseIP q) as [ip|]; [|done]. cbn [mbind option_bind].
  destruct (net.Contains n ip); [|done].
  cbn [snd mbind option_bind]. by rewrite lookup_insert_eq.
Qed.

Lemma rule_match_literal body k exc :
  one_line (bytes k) = true →
  rule_match body (literal_rule k exc) =
    Some (l ← first_keyword_line k body;
          if checkExceptions (strings.TrimSpace l) exc then None
          else Some (strings.TrimSpace l)).
Proof.
  intros Hk.
  unfold rule_match, checkKeywords_body, literal_rule.
  cbn [regexp keywordType_ ipNet exceptions].
  rewrite FindStringSubmatch_keyword_pattern by done.
  destruct (first_keyword_line k body) as [l|] eqn:El; [|done].
  cbn [mbind option_bind]. change ([l; l] !! 1%nat) with (Some l).
  cbn [mbind option_bind]. change (String.eqb "string" "ip") with false. cbv iota.
  destruct (checkExceptions _ exc); [done|].
  cbn [negb snd mbind option_bind]. by rewrite lookup_insert_eq.
Qed.

(** A compiled rule never panics. *)
Lemma search_length re b a s :
  search re b a = Some s → List.length s = (if (NumSubexp re =? 0)%nat then 1 else 2)%nat.
Proof.
  revert b. induction a as [|x a IH]; intros b; simpl.
  - destruct (run re accept b [] None) as [[[b' a'] c]|]; [|done].
    intros [= <-]. unfold submatches. by destruct (NumSubexp re =? 0)%nat.
  - destruct (run re accept b (x :: a) None) as [[[b' a'] c]|]; [|apply IH].
    intros [= <-]. unfold submatches. by destruct (NumSubexp re =? 0)%nat.
Qed.

Lemma rule_match_compiled body k v : compiled k v → is_Some (rule_match body v).
Proof.
  intros [(n & exc & _ & ->)|[exc ->]].
  - rewrite rule_match_cidr. by eexists.
  - unfold rule_match, checkKeywords_body, literal_rule.
    cbn [regexp keywordType_ ipNet exceptions].
    destruct (FindStringSubmatch (keyword_pattern k) body) as [s|] eqn:Es; [|by eexists].
    apply search_length in Es.
    replace (NumSubexp (keyword_pattern k)) with 1%nat in Es
      by (unfold keyword_pattern; simpl; by rewrite NumSubexp_literal).
    destruct s as [|s0 [|s1 [|]]]; try done.
    change ([s0; s1] !! 1%nat) with (Some s1). cbn [mbind option_bind].
    change (String.eqb "string" "ip") with false. cbv iota.
    destruct (checkExceptions _ exc); by eexists.
Qed.

Lemma MustCompile_keyword_Some kw re :
  MustCompile_keyword kw = Some re → re = keyword_pattern kw.
Proof. unfold MustCompile_keyword. destruct (_ && _); [by intros [= <-]|done]. Qed.

(** [parseKeywords] stores compiled rules only. *)
Lemma parseKeywords_loop_compiled defs acc kws :
  map_Forall compiled acc → parseKeywords_loop defs acc = Some (inr kws) →
  map_Forall compiled kws.
Proof.
  revert acc. induction defs as [|d defs IH]; intros acc Hacc; simpl.
  - by intros [= <-].
  - destruct (String.eqb (Type_ d) "cidr").
    + destruct (net.ParseCIDR (Keyword d)) as [n|] eqn:En; [|done].
      apply IH. apply map_Forall_insert_2; [|done]. left. by exists n, (Exceptions d).
    + destruct (MustCompile_keyword (Keyword d)) as [re|] eqn:Ere; [|done].
      apply MustCompile_keyword_Some in Ere as ->.
      apply IH. apply map_Forall_insert_2; [|done]. right. by exists (Exceptions d).
Qed.

Lemma parseKeywords_compiled defs kws :
  parseKeywords defs = Some (inr kws) → map_Forall compiled kws.
Proof. apply parseKeywords_loop_compiled. apply map_Forall_empty. Qed.

(** The result of [checkKeywords] on a compiled rule set, rule by rule,
    whatever the order in which the map is ranged over. *)
Lemma checkKeywords_compiled body defs kws l :
  parseKeywords defs = Some (inr kws) → l ≡ₚ map_to_list kws →
  ∃ status found,
    checkKeywords_range body l (false, ∅) = Some (status, found) ∧
    (∀ k, found !! k = (v ← kws !! k; recorded body v)) ∧
    (status = true ↔ ∃ k v, kws !! k = Some v ∧ is_Some (recorded body v)).
Proof.
  intros Hp Hl. apply checkKeywords_any_order; [done|].
  intros k v Hkv. eapply rule_match_compiled.
  by apply (parseKeywords_compiled defs kws Hp k v).
Qed.

End Matcher.

(** ** The rule compiler and the matcher *)









Lemma compiled_literal k v :
  compiled k v → keywordType_ v = "string" → v = literal_rule k (exceptions v).
Proof. intros [(n & exc & _ & ->)|[exc ->]]; [done|done]. Qed.

Lemma compiled_cidr k v :
  compiled k v → keywordType_ v = "ip" →
  ∃ n, net.ParseCIDR k = Some n ∧ v = cidr_rule n (exceptions v).
Proof. intros [(n & exc & Hn & ->)|[exc ->]]; [by exists n|done]. Qed.


(** C2, as amended.  For a cidr rule, [checkKeywords] returns on every
    body, and what it records for the rule is decided by the leftmost
    dotted quad of the body alone: that quad is recorded when it parses
    as an IP address inside the rule's network; when it lies outside, when
    it fails IP parsing, or when the body has no dotted quad, nothing is
    recorded for the rule, and there is no error.  A recorded match sets
    the overall flag. *)
Theorem cidr_rule_first_quad defs kws k v body :
  parseKeywords defs = Some (inr kws) → kws !! k = Some v → keywordType_ v = "ip" →
  ∃ n status found,
    net.ParseCIDR k = Some n ∧ ipNet v = Some n
    ∧ checkKeywords body kws = Some (status, found)
    ∧ found !! k =
        (q ← first_dotted_quad body; ip ← net.ParseIP q;
         if net.Contains n ip then Some q else None)
    ∧ (is_Some (found !! k) → status = true).
Proof.
  intros Hp Hk Ht.
  destruct (compiled_cidr k v (parseKeywords_compiled defs kws Hp k v Hk) Ht) as (n & Hn & Hv).
  destruct (checkKeywords_compiled body defs kws (map_to_list kws) Hp (reflexivity _))
    as (status & found & Hres & Hfound & Hstatus).
  exists n, status, found. split; [done|]. split; [by rewrite Hv|]. split; [done|].
  split.
  - rewrite Hfound, Hk. simpl. unfold recorded. rewrite Hv. by rewrite rule_match_cidr.
  - intros Hsome. apply Hstatus. exists k, v. split; [done|].
    by rewrite Hfound, Hk in Hsome.
Qed.

Lemma checkKeywords_singleton body k v :
  checkKeywords body {[k := v]} =
    (r ← rule_match body v;
     Some (match r with Some m => (true, {[k := m]}) | None => (false, ∅) end)).
Proof.
  unfold checkKeywords. rewrite map_to_list_singleton. cbn [checkKeywords_range].
  rewrite checkKeywords_body_rule. destruct (rule_match body v) as [[m|]|]; try done.
Qed.

(** C3.  On a compiled rule set [checkKeywords] returns the same result
    in whatever order the map is ranged over; what it records under a
    rule's key is what evaluating that rule alone records; keys without a
    rule have no entry; and the overall flag is set exactly when some
    rule, alone, sets it. *)
Theorem rules_evaluated_independently defs kws body :
  parseKeywords defs = Some (inr kws) →
  ∃ status found,
    checkKeywords body kws = Some (status, found)
    ∧ (∀ l, l ≡ₚ map_to_list kws →
            checkKeywords_range body l (false, ∅) = Some (status, found))
    ∧ (∀ k v, kws !! k = Some v →
         ∃ status1 found1,
           checkKeywords body {[k := v]} = Some (status1, found1)
           ∧ found !! k = found1 !! k
           ∧ (∀ k', k' ≠ k → found1 !! k' = None)
           ∧ (status1 = true → status = true))
    ∧ (∀ k, kws !! k = None → found !! k = None)
    ∧ (status = true →
         ∃ k v found1, kws !! k = Some v
                       ∧ checkKeywords body {[k := v]} = Some (true, found1)).
Proof.
  intros Hp.
  destruct (checkKeywords_compiled body defs kws (map_to_list kws) Hp (reflexivity _))
    as (status & found & Hres & Hfound & Hstatus).
  exists status, found. split; [done|]. split; [|split; [|split]].
  - intros l Hl.
    destruct (checkKeywords_compiled body defs kws l Hp Hl) as (s' & f' & Hres' & Hf' & Hs').
    rewrite Hres'. f_equal. f_equal.
    + destruct s', status; try done.
      * symmetry. apply Hstatus. by apply Hs'.
      * apply Hs'. by apply Hstatus.
    + apply map_eq. intros k. by rewrite Hf', Hfound.
  - intros k v Hk. rewrite checkKeywords_singleton.
    destruct (rule_match_compiled body k v (parseKeywords_compiled defs kws Hp k v Hk)) as [r Hr].
    rewrite Hr. cbn [mbind option_bind].
    assert (recorded body v = r) as Hrec by (unfold recorded; by rewrite Hr).
    destruct r as [m|].
    + exists true, {[k := m]}. split; [done|]. split; [|split].
      * rewrite Hfound, Hk. simpl. by rewrite Hrec, lookup_singleton_eq.
      * intros k' Hne. by rewrite lookup_singleton_ne.
      * intros _. apply Hstatus. exists k, v. split; [done|]. rewrite Hrec. by eexists.
    + exists false, ∅. split; [done|]. split; [|split; [done|done]].
      rewrite Hfound, Hk. simpl. by rewrite Hrec.
  - intros k Hk. by rewrite Hfound, Hk.
  - intros Hs. apply Hstatus in Hs as (k & v & Hk & [m Hm]).
    exists k, v, {[k := m]}. split; [done|]. rewrite checkKeywords_singleton.
    unfold recorded in Hm. destruct (rule_match body v) as [[m'|]|]; try done.
    simpl in Hm. by injection Hm as ->.
Qed.

Lemma checkKeywords_range_panic body l st k v :
  (k, v) ∈ l → rule_match body v = None → checkKeywords_range body l st = None.
Proof.
  intros Hin Hv. revert st. induction l as [|[k0 v0] l IH]; intros st.
  - by apply elem_of_nil in Hin.
  - cbn [checkKeywords_range]. rewrite checkKeywords_body_rule.
    apply elem_of_cons in Hin as [[= <- <-]|Hin].
    + by rewrite Hv.
    + destruct (rule_match body v0) as [r|]; [|done]. cbn [mbind option_bind].
      by apply IH.
Qed.

(** Two rule sets whose rules contribute the same, key by key, give the
    same result. *)
Lemma checkKeywords_ext body (kws kws' : gmap string keywordType) :
  (∀ k, rule_match body <$> kws !! k = rule_match body <$> kws' !! k) →
  checkKeywords body kws = checkKeywords body kws'.
Proof.
  intros Hext. unfold checkKeywords.
  destruct (decide (map_Forall (fun _ v => is_Some (rule_match body v)) kws)) as [Hall|Hnot].
  - assert (map_Forall (fun _ v => is_Some (rule_match body v)) kws') as Hall'.
    { intros k v' Hk. specialize (Hext k). rewrite Hk in Hext. simpl in Hext.
      destruct (kws !! k) as [v|] eqn:Hv; [|done]. injection Hext as <-. by apply (Hall k v). }
    destruct (checkKeywords_any_order body kws (map_to_list kws) (reflexivity _) Hall)
      as (s1 & f1 & -> & Hf1 & Hs1).
    destruct (checkKeywords_any_order body kws' (map_to_list kws') (reflexivity _) Hall')
      as (s2 & f2 & -> & Hf2 & Hs2).
    assert (∀ k, (kws !! k ≫= recorded body) = (kws' !! k ≫= recorded body)) as Hrec.
    { intros k. specialize (Hext k). unfold recorded.
      destruct (kws !! k), (kws' !! k); simpl in *; congruence. }
    f_equal. f_equal.
    + assert (s1 = true ↔ s2 = true) as Hiff.
      { rewrite Hs1, Hs2. split; intros (k & v & Hk & Hsome); specialize (Hrec k);
          rewrite Hk in Hrec; simpl in Hrec.
        - destruct (kws' !! k) as [v'|] eqn:Hk'; simpl in Hrec.
          + exists k, v'. split; [done|]. by rewrite <- Hrec.
          + rewrite Hrec in Hsome. by destruct Hsome.
        - destruct (kws !! k) as [v'|] eqn:Hk'; simpl in Hrec.
          + exists k, v'. split; [done|]. by rewrite Hrec.
          + rewrite <- Hrec in Hsome. by destruct Hsome. }
      destruct s1, s2; try done; [symmetry|]; by apply Hiff.
    + apply map_eq. intros k. by rewrite Hf1, Hf2, Hrec.
  - apply map_not_Forall in Hnot as (k & v & Hk & Hv); [|apply _].
    assert (rule_match body v = None) as Hv' by (by apply eq_None_not_Some).
    pose proof (Hext k) as He. rewrite Hk in He. simpl in He.
    destruct (kws' !! k) as [v'|] eqn:Hk'; [|done]. simpl in He.
    rewrite (checkKeywords_range_panic body _ _ k v); [|by apply elem_of_map_to_list|done].
    rewrite (checkKeywords_range_panic body _ _ k v'); [done|by apply elem_of_map_to_list|].
    congruence.
Qed.

Lemma rule_match_with_exceptions body v exc :
  keywordType_ v = "ip" → rule_match body (with_exceptions v exc) = rule_match body v.
Proof.
  intros Hip. unfold rule_match, checkKeywords_body, with_exceptions.
  cbn [regexp keywordType_ ipNet exceptions]. by rewrite Hip.
Qed.

(** C10.  Replacing the exception list of a rule of type [ip] by any
    other list leaves the result of [checkKeywords] unchanged, on every
    body and whatever other rules the set holds. *)
Theorem cidr_exceptions_have_no_effect body kws k v exc :
  keywordType_ v = "ip" →
  checkKeywords body (<[k := with_exceptions v exc]> kws)
  = checkKeywords body (<[k := v]> kws).
Proof.
  intros Hip. apply checkKeywords_ext. intros k'.
  destruct (decide (k = k')) as [<-|Hne].
  - rewrite !lookup_insert_eq. simpl. by rewrite rule_match_with_exceptions.
  - by rewrite !lookup_insert_ne.
Qed.

Lemma parseKeywords_loop_bad_cidr defs acc d :
  d ∈ defs → Type_ d = "cidr" → net.ParseCIDR (Keyword d) = None →
  (parseKeywords_loop defs acc = None
   ∨ ∃ msg, parseKeywords_loop defs acc = Some (inl msg))
  ∧ (forallb pattern_compiles defs = true →
     ∃ msg, parseKeywords_loop defs acc = Some (inl msg)).
Proof.
  intros Hin Hty Hbad. revert acc. induction defs as [|d0 defs IH]; intros acc.
  - by apply elem_of_nil in Hin.
  - cbn [parseKeywords_loop forallb]. unfold pattern_compiles at 1.
    apply elem_of_cons in Hin as [<-|Hin].
    + rewrite Hty. change (String.eqb "cidr" "cidr") with true. cbv iota.
      rewrite Hbad. split; [right|intros _]; by eexists.
    + destruct (String.eqb (Type_ d0) "cidr").
      * destruct (net.ParseCIDR (Keyword d0)); [by apply IH|].
        split; [right|intros _]; by eexists.
      * cbn [orb]. unfold MustCompile_keyword.
        destruct (utf8.ValidString (Keyword d0) && _); [by apply IH|].
        split; [by left|done].
Qed.

(** C7, as amended.  If some definition of type [cidr] has a keyword
    that [net.ParseCIDR] rejects, [parseKeywords] returns no rule set,
    whatever definitions come before or after it, and [main] does not
    start.  It returns the error, and [main] ends the process with that
    error, when the patterns of the other definitions compile; a
    definition of another type whose keyword is no valid UTF-8 makes
    [regexp.MustCompile] panic instead if it comes first. *)
Theorem unparseable_cidr_aborts defs d :
  d ∈ defs → Type_ d = "cidr" → net.ParseCIDR (Keyword d) = None →
  (∀ kws, parseKeywords defs ≠ Some (inr kws))
  ∧ (∀ kws, main_parseKeywords defs ≠ Started kws)
  ∧ (forallb pattern_compiles defs = true →
     ∃ msg, parseKeywords defs = Some (inl msg)
            ∧ main_parseKeywords defs = Fatal ("could not parse keywords: " +:+ msg)).
Proof.
  intros Hin Hty Hbad.
  destruct (parseKeywords_loop_bad_cidr defs ∅ d Hin Hty Hbad) as [Hno Herr].
  fold (parseKeywords defs) in Hno, Herr. unfold main_parseKeywords.
  split; [|split].
  - intros kws Hk. rewrite Hk in Hno. by destruct Hno as [|[? ?]].
  - intros kws. by destruct Hno as [->|[msg ->]].
  - intros Hall. destruct (Herr Hall) as [msg Hmsg]. exists msg. by rewrite Hmsg.
Qed.

(** ** The end-to-end scenarios *)

(** C5.  Scenario 1: the single rule with keyword 10.0.0.0/8 of type cidr
    compiles, and on the body below [checkKeywords] returns the flag
    [true] and the one match of 10.5.5.5 under the rule's key. *)
Theorem scenario_cidr_match :
  parseKeywords cidr_defs = Some (inr cidr_rules)
  ∧ checkKeywords "contact ip 10.5.5.5 for access" cidr_rules
    = Some (true, {[ "10.0.0.0/8" := "10.5.5.5" ]}).
Proof. split; by_evaluation. Qed.

(** C6.  Scenario 2: the literal rule for password with the exception
    example.com compiles; a body whose line has the keyword and the
    exception gives no match, and a body whose line has the keyword only
    gives that line as the rule's match. *)
Theorem scenario_password_exception :
  parseKeywords password_defs = Some (inr password_rules)
  ∧ checkKeywords "my password is at example.com/docs" password_rules
    = Some (false, ∅)
  ∧ checkKeywords "my password is hunter2" password_rules
    = Some (true, {[ "password" := "my password is hunter2" ]}).
Proof. repeat split; by_evaluation. Qed.

(** ** Inputs on which the wording of the specification fails *)


(** C2 as stated fails: 10.5.5.5 is a dotted quad of the body and lies in
    the rule's network, and yet nothing is recorded, since an earlier
    dotted quad lies outside it. *)
Lemma later_quad_not_matched :
  parseKeywords cidr_defs = Some (inr cidr_rules)
  ∧ strings.Contains "see 192.168.1.1 and 10.5.5.5" "10.5.5.5" = true
  ∧ is_dotted_quad "10.5.5.5" = true
  ∧ (net.Contains net10 <$> net.ParseIP "10.5.5.5") = Some true
  ∧ first_dotted_quad "see 192.168.1.1 and 10.5.5.5" = Some "192.168.1.1"
  ∧ checkKeywords "see 192.168.1.1 and 10.5.5.5" cidr_rules = Some (false, ∅).
Proof. repeat split; by_evaluation. Qed.

(** The exception test is made on the first line that has the keyword;
    a later line with the keyword and no exception is not looked at. *)
Example exception_on_first_line_hides_later_line :
  checkKeywords "password: see example.com
password: hunter2" password_rules = Some (false, ∅).
Proof. by_evaluation. Qed.

(** A leftmost dotted quad that is no IP address ends the rule's
    evaluation without a match. *)
Example unparseable_quad_hides_later_quad :
  checkKeywords "build 999.1.1.1 on 10.5.5.5" cidr_rules = Some (false, ∅).
Proof. by_evaluation. Qed.

(** C7 as stated fails: the keyword below is no IPv4 CIDR, and yet
    [parseKeywords] returns a rule set, since [net.ParseCIDR] reads IPv6
    networks as well. *)
Lemma ipv6_cidr_accepted :
  is_ipv4_cidr "2001:db8::/32" = false
  ∧ parseKeywords ipv6_defs = Some (inr {[ "2001:db8::/32" := cidr_rule net_2001_db8 [] ]}).
Proof. split; by_evaluation. Qed.

(** ** Instances *)


Lemma cidr_rule_first_quad_witness :
  parseKeywords cidr_defs = Some (inr cidr_rules)
  ∧ ∃ n status found,
      net.ParseCIDR "10.0.0.0/8" = Some n ∧ ipNet (cidr_rule net10 []) = Some n
      ∧ checkKeywords "contact ip 10.5.5.5 for access" cidr_rules = Some (status, found)
      ∧ found !! "10.0.0.0/8" =
          (q ← first_dotted_quad "contact ip 10.5.5.5 for access";
           ip ← net.ParseIP q;
           if net.Contains n ip then Some q else None)
      ∧ (is_Some (found !! "10.0.0.0/8") → status = true).
Proof.
  split; [by_evaluation|].
  apply (cidr_rule_first_quad cidr_defs cidr_rules "10.0.0.0/8" (cidr_rule net10 [])).
  - by_evaluation.
  - by_evaluation.
  - reflexivity.
Defined.

Lemma rules_evaluated_independently_witness :
  parseKeywords mixed_defs = Some (inr mixed_rules)
  ∧ checkKeywords "my password is 10.5.5.5" mixed_rules
    = Some (true, {[ "10.0.0.0/8" := "10.5.5.5";
                     "password" := "my password is 10.5.5.5" ]})
  ∧ ∃ status found,
      checkKeywords "my password is 10.5.5.5" mixed_rules = Some (status, found)
      ∧ (∀ l, l ≡ₚ map_to_list mixed_rules →
              checkKeywords_range "my password is 10.5.5.5" l (false, ∅) = Some (status, found))
      ∧ (∀ k v, mixed_rules !! k = Some v →
           ∃ status1 found1,
             checkKeywords "my password is 10.5.5.5" {[k := v]} = Some (status1, found1)
             ∧ found !! k = found1 !! k
             ∧ (∀ k', k' ≠ k → found1 !! k' = None)
             ∧ (status1 = true → status = true))
      ∧ (∀ k, mixed_rules !! k = None → found !! k = None)
      ∧ (status = true →
           ∃ k v found1, mixed_rules !! k = Some v
                         ∧ checkKeywords "my password is 10.5.5.5" {[k := v]} = Some (true, found1)).
Proof.
  split; [by_evaluation|]. split; [by_evaluation|].
  apply (rules_evaluated_independently mixed_defs mixed_rules "my password is 10.5.5.5").
  by_evaluation.
Defined.

Lemma cidr_exceptions_have_no_effect_witness :
  keywordType_ (cidr_rule net10 []) = "ip"
  ∧ checkKeywords "contact ip 10.5.5.5 for access"
      (<["10.0.0.0/8" := with_exceptions (cidr_rule net10 []) ["10.5.5.5"]]> ∅)
    = checkKeywords "contact ip 10.5.5.5 for access"
        (<["10.0.0.0/8" := cidr_rule net10 []]> ∅).
Proof.
  split; [reflexivity|].
  apply (cidr_exceptions_have_no_effect _ _ _ (cidr_rule net10 [])). reflexivity.
Defined.

Lemma unparseable_cidr_aborts_witness :
  net.ParseCIDR "10.0.0.0/40" = None
  ∧ forallb pattern_compiles broken_defs = true
  ∧ (∀ kws, parseKeywords broken_defs ≠ Some (inr kws))
  ∧ ∃ msg, parseKeywords broken_defs = Some (inl msg)
           ∧ main_parseKeywords broken_defs
             = Fatal ("could not parse keywords: " +:+ msg).
Proof.
  split; [by_evaluation|]. split; [by_evaluation|].
  destruct (unparseable_cidr_aborts broken_defs
              {| Keyword := "10.0.0.0/40"; Type_ := "cidr"; Exceptions := [] |})
    as (Hno & _ & Herr).
  - by_membership.
  - reflexivity.
  - by_evaluation.
  - split; [exact Hno|]. apply Herr. by_evaluation.
Defined.

(** ** The seen-set *)

Lemma seen_has_true (m : gmap string Z) key : seen_has m key = true ↔ is_Some (m !! key).
Proof. unfold seen_has. apply bool_decide_eq_true. Qed.

Lemma seen_evict_lookup th (m : gmap string Z) key t :
  seen_evict th m !! key = Some t ↔ m !! key = Some t ∧ ¬ (t < th)%Z.
Proof. unfold seen_evict. by rewrite map_lookup_filter_Some. Qed.

Lemma seen_evict_lookup_eq th (m : gmap string Z) key :
  seen_evict th m !! key =
    (t ← m !! key; if bool_decide (t < th)%Z then None else Some t).
Proof.
  destruct (m !! key) as [t|] eqn:Hm; simpl.
  - destruct (decide (t < th)%Z) as [Hlt|Hge].
    + rewrite bool_decide_eq_true_2 by done.
      destruct (seen_evict th m !! key) as [t'|] eqn:E; [|done].
      apply seen_evict_lookup in E as [E Hn]. congruence.
    + rewrite bool_decide_eq_false_2 by done. by apply seen_evict_lookup.
  - destruct (seen_evict th m !! key) as [t'|] eqn:E; [|done].
    apply seen_evict_lookup in E as [E _]. congruence.
Qed.

Lemma seen_visit_has (m : gmap string Z) key t key' :
  seen_has (seen_visit m key t) key' = seen_has m key' || String.eqb key key'.
Proof.
  unfold seen_visit. destruct (seen_has m key) eqn:Hk.
  - destruct (String.eqb_spec key key') as [<-|]; [by rewrite Hk|by rewrite orb_false_r].
  - unfold seen_mark, seen_has. destruct (String.eqb_spec key key') as [<-|Hne].
    + rewrite lookup_insert_eq, orb_true_r. by apply bool_decide_eq_true_2.
    + rewrite lookup_insert_ne by done. by rewrite orb_false_r.
Qed.

Lemma union_known_key (kp : string) (K D : gset string) :
  kp ∈ D → D ∪ K = D ∪ ({[kp]} ∪ K).
Proof.
  intros Hin. apply set_eq. intros x.
  rewrite !elem_of_union, elem_of_singleton.
  split; [tauto|]. intros [Hx|[->|Hx]]; tauto.
Qed.

Lemma union_new_key (kp : string) (K D : gset string) :
  {[kp]} ∪ D ∪ K = D ∪ ({[kp]} ∪ K).
Proof.
  apply set_eq. intros x. rewrite !elem_of_union, elem_of_singleton. tauto.
Qed.

(** ** The poll cycle *)

Section ControllerProperties.

Variable paste : Type.
Variable Key : paste -> string.
Variable fetchPasteList : Z -> (string + list paste) * Z.
Variable fetch : paste -> gmap string keywordType -> Z -> (string + option paste) * Z.
Variable keywords : gmap string keywordType.

(** What one item does: nothing if its key is in the seen-set; otherwise
    the key is marked and exactly one fetch is recorded, for that key. *)
Lemma visit_effect (st : loop_state paste) (p : paste) :
  alredyChecked (visit Key fetch keywords st p)
  = seen_visit (alredyChecked st) (Key p) (now st)
  ∧ ∃ evs, events (visit Key fetch keywords st p) = events st ++ evs
      ∧ (seen_has (alredyChecked st) (Key p) = true →
           visit Key fetch keywords st p = st ∧ evs = [])
      ∧ (seen_has (alredyChecked st) (Key p) = false →
           ∀ key, fetches key evs = if String.eqb (Key p) key then 1%nat else 0%nat).
Proof.
  unfold visit, seen_visit.
  destruct (seen_has (alredyChecked st) (Key p)) eqn:Hseen.
  - split; [done|]. exists []. rewrite app_nil_r. by repeat split.
  - cbn [now with_seen].
    destruct (fetch p keywords (now st)) as [res t].
    split; [by destruct res as [err|[p2|]]|].
    destruct res as [err|[p2|]]; cbn [events sleep advance emit with_seen];
      rewrite <- ?app_assoc; eexists; (split; [reflexivity|]); (split; [done|]);
      intros _ key; unfold fetches; cbn [List.filter is_fetch_of app];
      by destruct (String.eqb (Key p) key).
Qed.

Lemma fetches_app key (e1 e2 : list (event paste)) :
  fetches key (e1 ++ e2) = (fetches key e1 + fetches key e2)%nat.
Proof. unfold fetches. by rewrite List.filter_app, length_app. Qed.

Lemma elem_of_cons_decide (key : string) (p : paste) (pastes : list paste) :
  bool_decide (key ∈ Key <$> p :: pastes)
  = String.eqb (Key p) key || bool_decide (key ∈ Key <$> pastes).
Proof.
  rewrite fmap_cons. destruct (String.eqb_spec (Key p) key) as [<-|Hne]; cbn [orb].
  - apply bool_decide_eq_true_2. by left.
  - apply bool_decide_ext. rewrite elem_of_cons.
    split; [intros [?|?]; [congruence|done]|by right].
Qed.

(** The item loop: per key, one fetch if the key is listed and was not in
    the seen-set, none otherwise, however often the key is listed. *)
Lemma visit_all_effect (pastes : list paste) (st : loop_state paste) :
  ∃ evs, events (visit_all Key fetch keywords st pastes) = events st ++ evs
    ∧ ∀ key, fetches key evs =
        if seen_has (alredyChecked st) key then 0%nat
        else if bool_decide (key ∈ Key <$> pastes) then 1%nat else 0%nat.
Proof.
  revert st. induction pastes as [|p pastes IH]; intros st.
  - exists []. rewrite app_nil_r. split; [done|]. intros key.
    by destruct (seen_has _ key).
  - cbn [visit_all foldl].
    destruct (visit_effect st p) as (Hseen & evs1 & Hev1 & Hskip & Hfetch).
    destruct (IH (visit Key fetch keywords st p)) as (evs2 & Hev2 & Hcount).
    exists (evs1 ++ evs2). split.
    { unfold visit_all in Hev2. rewrite Hev2, Hev1. by rewrite app_assoc. }
    intros key. rewrite fetches_app, Hcount, Hseen, seen_visit_has, elem_of_cons_decide.
    destruct (seen_has (alredyChecked st) (Key p)) eqn:Hp.
    + destruct (Hskip eq_refl) as [_ ->]. cbn [fetches List.filter List.length plus].
      destruct (seen_has (alredyChecked st) key) eqn:Hkey; [done|]. cbn [orb].
      destruct (String.eqb_spec (Key p) key) as [He|Hne]; [congruence|done].
    + rewrite (Hfetch eq_refl key).
      destruct (String.eqb_spec (Key p) key) as [<-|Hne].
      * by rewrite Hp, orb_true_r.
      * rewrite orb_false_r. by destruct (seen_has (alredyChecked st) key).
Qed.

(** Every listed key is in the seen-set once its item has been visited. *)
Lemma visit_all_seen (pastes : list paste) (st : loop_state paste) key :
  seen_has (alredyChecked (visit_all Key fetch keywords st pastes)) key =
    seen_has (alredyChecked st) key || bool_decide (key ∈ Key <$> pastes).
Proof.
  revert st. induction pastes as [|p pastes IH]; intros st.
  - cbn. rewrite bool_decide_eq_false_2; [by rewrite orb_false_r|]. by intros ?%elem_of_nil.
  - cbn [visit_all foldl]. unfold visit_all in IH. rewrite IH.
    destruct (visit_effect st p) as (-> & _).
    by rewrite seen_visit_has, elem_of_cons_decide, orb_assoc.
Qed.

Lemma wait_effect (st : loop_state paste) :
  alredyChecked (wait st) = alredyChecked st
  ∧ ∃ evs, events (wait st) = events st ++ evs
      ∧ (∀ key, fetches key evs = 0%nat)
      ∧ List.filter is_fetch evs = []
      ∧ List.filter is_error evs = [].
Proof.
  unfold wait. destruct (0 <? _)%Z; cbn.
  - split; [done|]. eexists. split; [reflexivity|]. by repeat split.
  - split; [done|]. exists []. rewrite app_nil_r. by repeat split.
Qed.

Lemma new_events_app (st st' : loop_state paste) evs :
  events st' = events st ++ evs → new_events st st' = evs.
Proof. intros H. unfold new_events. rewrite H. by rewrite drop_app_length. Qed.

(** After a successful listing the cycle ends with the clean-up, whose
    threshold lies ten minutes before the instant the item loop ended. *)
Lemma cycle_evicts (st : loop_state paste) (pastes : list paste) (t : Z) :
  fetchPasteList (now (wait st)) = (inr pastes, t) →
  let st2 := visit_all Key fetch keywords (advance t (emit EvList (wait st))) pastes in
  alredyChecked (cycle Key fetchPasteList fetch keywords st)
  = seen_evict (now st2 + - 10 * minute) (alredyChecked st2).
Proof. intros Hlist. unfold cycle. by rewrite Hlist. Qed.

(** The item loop keeps the entries of the seen-set, with their stamps,
    and adds the listed keys. *)
Lemma visit_all_seen_set (st : loop_state paste) (pastes : list paste) :
  alredyChecked st ⊆ alredyChecked (visit_all Key fetch keywords st pastes)
  ∧ dom (alredyChecked (visit_all Key fetch keywords st pastes))
    = dom (alredyChecked st) ∪ list_to_set (Key <$> pastes).
Proof.
  revert st. induction pastes as [|p pastes IH]; intros st.
  - split; [done|]. cbn. apply set_eq. intros x. rewrite elem_of_union, elem_of_empty. tauto.
  - cbn [visit_all foldl]. destruct (IH (visit Key fetch keywords st p)) as [Hsub Hdom].
    unfold visit_all in Hsub, Hdom.
    destruct (visit_effect st p) as (Hseen & _).
    rewrite Hseen in Hsub, Hdom. unfold seen_visit in Hsub, Hdom.
    rewrite fmap_cons, list_to_set_cons.
    destruct (seen_has (alredyChecked st) (Key p)) eqn:Hp.
    + split; [done|]. rewrite Hdom. apply seen_has_true, elem_of_dom in Hp.
      by apply union_known_key.
    + unfold seen_mark in Hsub, Hdom. split.
      * etrans; [|exact Hsub]. apply insert_subseteq.
        destruct (alredyChecked st !! Key p) eqn:E; [|done].
        assert (seen_has (alredyChecked st) (Key p) = true) by (apply seen_has_true; by eexists).
        congruence.
      * rewrite Hdom, dom_insert_L. apply union_new_key.
Qed.

(** C4.  In the loop of [main]: visiting an item puts its identifier in
    the seen-set, stamped with the current instant unless it was there,
    in which case the stamp stays; visiting the same item again changes
    nothing; the identifier stays in the set, and every entry keeps its
    stamp, whatever items the loop goes through afterwards.  The
    clean-up that ends a cycle with a successful listing takes as
    threshold the instant at which the item loop ended less ten minutes:
    it removes exactly the entries stamped strictly before the threshold
    and keeps every other entry with its stamp, so that afterwards an
    identifier is in the set exactly when it was in it with a stamp not
    before the threshold; in particular an entry that the set had when
    the cycle began passes the clean-up, unchanged, exactly when its
    stamp is not before the threshold. *)
Theorem seen_set_cache (st : loop_state paste) (p : paste) (pastes : list paste)
    (t : Z) :
  fetchPasteList (now (wait st)) = (inr pastes, t) →
  let st1 := visit Key fetch keywords st p in
  let st2 := visit_all Key fetch keywords (advance t (emit EvList (wait st))) pastes in
  let threshold := (now st2 + - 10 * minute)%Z in
  alredyChecked st1 !! Key p = Some (default (now st) (alredyChecked st !! Key p))
  ∧ visit Key fetch keywords st1 p = st1
  ∧ (∀ l, seen_has (alredyChecked (visit_all Key fetch keywords st1 l)) (Key p) = true)
  ∧ (∀ l id ts, alredyChecked st !! id = Some ts →
       alredyChecked (visit_all Key fetch keywords st l) !! id = Some ts)
  ∧ (∀ id, alredyChecked (cycle Key fetchPasteList fetch keywords st) !! id
           = (ts ← alredyChecked st2 !! id;
              if bool_decide (ts < threshold)%Z then None else Some ts))
  ∧ (∀ id, seen_has (alredyChecked (cycle Key fetchPasteList fetch keywords st)) id
           = match alredyChecked st2 !! id with
             | Some ts => bool_decide (threshold <= ts)%Z
             | None => false
             end)
  ∧ (∀ id ts, alredyChecked st !! id = Some ts →
       alredyChecked (cycle Key fetchPasteList fetch keywords st) !! id
       = if bool_decide (ts < threshold)%Z then None else Some ts).
Proof.
  intros Hlist st1 st2 threshold.
  destruct (visit_effect st p) as (Hseen1 & _).
  assert (seen_has (alredyChecked st1) (Key p) = true) as Hhas1.
  { subst st1. by rewrite Hseen1, seen_visit_has, String.eqb_refl, orb_true_r. }
  assert (∀ id, alredyChecked (cycle Key fetchPasteList fetch keywords st) !! id
                = (ts ← alredyChecked st2 !! id;
                   if bool_decide (ts < threshold)%Z then None else Some ts)) as Hevict.
  { intros id. rewrite (cycle_evicts st pastes t Hlist). apply seen_evict_lookup_eq. }
  split; [|split; [|split; [|split; [|split; [|split]]]]].
  - subst st1. rewrite Hseen1. unfold seen_visit, seen_mark.
    destruct (seen_has (alredyChecked st) (Key p)) eqn:Hp.
    + apply seen_has_true in Hp as [ts Hts]. by rewrite Hts.
    + rewrite lookup_insert_eq.
      destruct (alredyChecked st !! Key p) as [ts|] eqn:Hts; [|done].
      assert (seen_has (alredyChecked st) (Key p) = true)
        by (apply seen_has_true; by eexists).
      congruence.
  - destruct (visit_effect st1 p) as (_ & evs & _ & Hskip & _). by destruct (Hskip Hhas1).
  - intros l. by rewrite visit_all_seen, Hhas1.
  - intros l id ts Hts. destruct (visit_all_seen_set st l) as [Hsub _].
    by apply (lookup_weaken _ _ _ _ Hts Hsub).
  - exact Hevict.
  - intros id. unfold seen_has. rewrite Hevict.
    destruct (alredyChecked st2 !! id) as [ts|]; cbn [mbind option_bind].
    + destruct (decide (ts < threshold)%Z) as [Hlt|Hge].
      * rewrite (bool_decide_eq_true_2 _ Hlt).
        rewrite bool_decide_eq_false_2 by (by intros [? ?]).
        symmetry. apply bool_decide_eq_false_2. lia.
      * rewrite (bool_decide_eq_false_2 _ Hge).
        rewrite bool_decide_eq_true_2 by (by eexists).
        symmetry. apply bool_decide_eq_true_2. lia.
    + apply bool_decide_eq_false_2. by intros [? ?].
  - intros id ts Hts. rewrite Hevict.
    destruct (visit_all_seen_set (advance t (emit EvList (wait st))) pastes) as [Hsub _].
    assert (alredyChecked (advance t (emit EvList (wait st))) !! id = Some ts) as Hts'.
    { cbn [alredyChecked advance emit]. by destruct (wait_effect st) as [-> _]. }
    fold st2 in Hsub. by rewrite (lookup_weaken _ _ _ _ Hts' Hsub).
Qed.

(** C8.  In a poll cycle whose listing holds an item [p] after an
    earlier item with the same key: when the loop reaches [p] the key is
    already in the seen-set (it was marked before the fetch of the first
    occurrence, whatever that fetch returned), so visiting [p] leaves the
    state and the trace as they are, and the whole cycle calls the fetch
    for any key at most once: once for a listed key that was not in the
    seen-set when the cycle began, never otherwise. *)
Theorem duplicate_key_fetched_once (st : loop_state paste)
    (l1 : list paste) (p : paste) (l2 : list paste) (t : Z) :
  fetchPasteList (now (wait st)) = (inr (l1 ++ p :: l2), t) →
  Key p ∈ Key <$> l1 →
  let st1 := advance t (emit EvList (wait st)) in
  seen_has (alredyChecked (visit_all Key fetch keywords st1 l1)) (Key p) = true
  ∧ visit Key fetch keywords (visit_all Key fetch keywords st1 l1) p
    = visit_all Key fetch keywords st1 l1
  ∧ ∀ key,
      fetches key (new_events st (cycle Key fetchPasteList fetch keywords st)) =
        if seen_has (alredyChecked st) key then 0%nat
        else if bool_decide (key ∈ Key <$> l1 ++ p :: l2) then 1%nat else 0%nat.
Proof.
  intros Hlist Hin st1.
  assert (seen_has (alredyChecked (visit_all Key fetch keywords st1 l1)) (Key p) = true)
    as Hseen1.
  { rewrite visit_all_seen. rewrite (bool_decide_eq_true_2 _ Hin). by rewrite orb_true_r. }
  split; [done|]. split.
  - destruct (visit_effect (visit_all Key fetch keywords st1 l1) p) as (_ & evs & _ & Hskip & _).
    by destruct (Hskip Hseen1).
  - intros key. unfold cycle. rewrite Hlist.
    destruct (wait_effect st) as (Hseen & evs0 & Hev0 & Hf0 & _).
    fold st1.
    destruct (visit_all_effect (l1 ++ p :: l2) st1) as (evs & Hev & Hcount).
    rewrite (new_events_app st _ (evs0 ++ [EvList] ++ evs)).
    + rewrite !fetches_app, Hf0, Hcount. subst st1. cbn [alredyChecked advance emit].
      by rewrite Hseen.
    + cbn [events with_seen]. rewrite Hev. subst st1. cbn [events advance emit].
      rewrite Hev0. by rewrite <- !app_assoc.
Qed.

(** C9.  In a poll cycle whose listing fails the seen-set is left as it
    was (nothing marked, nothing evicted), no fetch is attempted, and the
    loop sends exactly one error, the one of the listing. *)
Theorem failed_listing_skips_cycle (st : loop_state paste) (err : string) (t : Z) :
  fetchPasteList (now (wait st)) = (inl err, t) →
  alredyChecked (cycle Key fetchPasteList fetch keywords st) = alredyChecked st
  ∧ List.filter is_fetch
      (new_events st (cycle Key fetchPasteList fetch keywords st)) = []
  ∧ List.filter is_error
      (new_events st (cycle Key fetchPasteList fetch keywords st))
    = [EvError ("fetchPasteList: " +:+ err)].
Proof.
  intros Hlist. unfold cycle. rewrite Hlist.
  destruct (wait_effect st) as (Hseen & evs0 & Hev0 & _ & Hf0 & He0).
  split; [done|].
  rewrite (new_events_app st _ (evs0 ++ [EvList; EvError ("fetchPasteList: " +:+ err)])).
  - rewrite !List.filter_app, Hf0, He0. by split.
  - cbn [events advance emit]. rewrite Hev0. by rewrite <- !app_assoc.
Qed.

End ControllerProperties.

Lemma duplicate_key_fetched_once_witness :
  sample_list (now (wait start_state)) = (inr (["a"; "b"] ++ "a" :: []), 60000000001%Z)
  ∧ fetches "a"
      (new_events start_state
         (cycle id sample_list sample_fetch cidr_rules start_state)) = 1%nat.
Proof.
  split; [by_evaluation|].
  destruct (duplicate_key_fetched_once string id sample_list sample_fetch cidr_rules
              start_state ["a"; "b"] "a" [] 60000000001%Z) as (_ & _ & H).
  - by_evaluation.
  - by_membership.
  - rewrite (H "a"). vm_compute. reflexivity.
Defined.

Lemma seen_set_cache_witness :
  sample_list (now (wait stale_state)) = (inr ["a"; "b"; "a"], 700000000001%Z)
  ∧ alredyChecked (visit id sample_fetch cidr_rules stale_state "b") !! "b"
    = Some 700000000000%Z
  ∧ visit id sample_fetch cidr_rules (visit id sample_fetch cidr_rules stale_state "b") "b"
    = visit id sample_fetch cidr_rules stale_state "b"
  ∧ alredyChecked (cycle id sample_list sample_fetch cidr_rules stale_state) !! "old"
    = None
  ∧ alredyChecked (cycle id sample_list sample_fetch cidr_rules stale_state) !! "a"
    = Some 600000000000%Z.
Proof.
  split; [by_evaluation|].
  destruct (seen_set_cache string id sample_list sample_fetch cidr_rules stale_state
              "b" ["a"; "b"; "a"] 700000000001%Z) as (H1 & H2 & _ & _ & _ & _ & H7).
  - by_evaluation.
  - split; [etrans; [exact H1|by_evaluation]|].
    split; [exact H2|].
    split; (etrans; [apply H7; by_evaluation|by_evaluation]).
Defined.

Lemma failed_listing_skips_cycle_witness :
  failing_list (now (wait start_state)) = (inl "timeout", 60000000001%Z)
  ∧ alredyChecked (cycle id failing_list sample_fetch cidr_rules start_state)
    = alredyChecked start_state.
Proof.
  split; [by_evaluation|].
  apply (failed_listing_skips_cycle string id failing_list sample_fetch cidr_rules
           start_state "timeout" 60000000001%Z).
  by_evaluation.
Defined.

(** * Further properties of the code *)

#[local] Arguments String.eqb : simpl never.
#[local] Arguments net.ParseCIDR : simpl never.
#[local] Arguments strings.asciiSpace : simpl never.
#[local] Arguments strings.space2 : simpl never.
#[local] Arguments strings.space3 : simpl never.

(** ** The rule compiler [parseKeywords] *)

Lemma parseKeywords_loop_step d defs acc :
  parseKeywords_loop (d :: defs) acc =
    match compile_rule d with
    | Some r => parseKeywords_loop defs (<[Keyword d := r]> acc)
    | None =>
        if String.eqb (Type_ d) "cidr"
        then Some (inl ("could not parse cidr " +:+ Keyword d
                        +:+ ": invalid CIDR address: " +:+ Keyword d))
        else None
    end.
Proof.
  cbn [parseKeywords_loop]. unfold compile_rule.
  destruct (String.eqb (Type_ d) "cidr").
  - by destruct (net.ParseCIDR (Keyword d)).
  - destruct (MustCompile_keyword (Keyword d)) as [re|] eqn:Ere; [|done].
    by apply MustCompile_keyword_Some in Ere as ->.
Qed.

Lemma last_definition_cons k d defs :
  last_definition k (d :: defs) =
    match last_definition k defs with
    | Some d' => Some d'
    | None => if String.eqb (Keyword d) k then Some d else None
    end.
Proof.
  unfold last_definition. rewrite filter_cons.
  destruct (String.eqb_spec (Keyword d) k) as [He|Hne].
  - rewrite decide_True by done. rewrite last_cons. by destruct (last _).
  - rewrite decide_False by done. by destruct (last _).
Qed.

Lemma parseKeywords_loop_lookup defs acc kws k :
  parseKeywords_loop defs acc = Some (inr kws) →
  kws !! k =
    match last_definition k defs with
    | Some d => compile_rule d
    | None => acc !! k
    end.
Proof.
  revert acc. induction defs as [|d defs IH]; intros acc.
  - by intros [= <-].
  - rewrite parseKeywords_loop_step, last_definition_cons.
    destruct (compile_rule d) as [r|] eqn:Hr; [|by destruct (String.eqb _ _)].
    intros H. rewrite (IH _ H).
    destruct (last_definition k defs); [done|].
    destruct (String.eqb_spec (Keyword d) k) as [<-|Hne].
    + by rewrite lookup_insert_eq.
    + by rewrite lookup_insert_ne.
Qed.

Lemma parseKeywords_loop_ok defs acc :
  Forall (fun d => is_Some (compile_rule d)) defs →
  ∃ kws, parseKeywords_loop defs acc = Some (inr kws).
Proof.
  intros H. revert acc. induction H as [|d defs [r Hr] _ IH]; intros acc.
  - by eexists.
  - rewrite parseKeywords_loop_step, Hr. apply IH.
Qed.

Lemma parseKeywords_loop_all_compile defs acc kws :
  parseKeywords_loop defs acc = Some (inr kws) →
  Forall (fun d => is_Some (compile_rule d)) defs.
Proof.
  revert acc. induction defs as [|d defs IH]; intros acc; [done|].
  rewrite parseKeywords_loop_step. destruct (compile_rule d) as [r|] eqn:Hr; [|by destruct (String.eqb _ _)].
  intros H. apply Forall_cons. split; [by eexists|by eapply IH].
Qed.

Lemma parseKeywords_loop_first_error pre d post acc :
  Forall (fun d => is_Some (compile_rule d)) pre →
  Type_ d = "cidr" → net.ParseCIDR (Keyword d) = None →
  parseKeywords_loop (pre ++ d :: post) acc
  = Some (inl ("could not parse cidr " +:+ Keyword d
               +:+ ": invalid CIDR address: " +:+ Keyword d)).
Proof.
  intros H Hty Hd. revert acc. induction H as [|d0 pre [r Hr] _ IH]; intros acc.
  - cbn [app parseKeywords_loop]. rewrite Hty.
    change (String.eqb "cidr" "cidr") with true. cbv iota. by rewrite Hd.
  - cbn [app]. rewrite parseKeywords_loop_step, Hr. apply IH.
Qed.

Lemma compile_rule_is_Some d :
  is_Some (compile_rule d)
  ↔ if String.eqb (Type_ d) "cidr" then is_Some (net.ParseCIDR (Keyword d))
    else utf8.ValidString (Keyword d) = true
         ∧ (utf8.RuneCountInString (Keyword d) <= regexp.maxRunes)%N.
Proof.
  unfold compile_rule, MustCompile_keyword.
  destruct (String.eqb (Type_ d) "cidr"); [by rewrite fmap_is_Some|].
  rewrite fmap_is_Some.
  destruct (utf8.ValidString (Keyword d)); cbn [andb].
  - destruct (N.leb_spec (utf8.RuneCountInString (Keyword d)) regexp.maxRunes) as [Hle|Hgt].
    + split; [done|]. intros _. by eexists.
    + split; [by intros [? ?]|]. intros [_ H]. lia.
  - split; [by intros [? ?]|]. by intros [? _].
Qed.

(** X1. [parseKeywords] returns a rule set exactly when every
    definition compiles: the keyword of a definition of type "cidr" is
    read by [net.ParseCIDR], and the keyword of a definition of any other
    type is valid UTF-8 of at most [maxRunes] runes, which is what
    [regexp.MustCompile] needs in order not to panic on its pattern. *)
Theorem parseKeywords_succeeds_iff defs :
  (∃ kws, parseKeywords defs = Some (inr kws))
  ↔ ∀ d, d ∈ defs →
      if String.eqb (Type_ d) "cidr" then is_Some (net.ParseCIDR (Keyword d))
      else utf8.ValidString (Keyword d) = true
           ∧ (utf8.RuneCountInString (Keyword d) <= regexp.maxRunes)%N.
Proof.
  split.
  - intros [kws Hk] d Hin.
    apply parseKeywords_loop_all_compile in Hk.
    rewrite Forall_forall in Hk. by apply compile_rule_is_Some, Hk.
  - intros H. apply parseKeywords_loop_ok. apply Forall_forall. intros d Hin.
    by apply compile_rule_is_Some, H.
Qed.

(** X2. When the definitions before [d] compile and [d] is a cidr
    definition whose keyword [net.ParseCIDR] rejects, [parseKeywords]
    stops at [d]: the error is the message built from the keyword of [d],
    whatever follows it in the configuration. *)
Theorem parseKeywords_reports_first_bad_cidr pre d post acc :
  parseKeywords pre = Some (inr acc) →
  Type_ d = "cidr" → net.ParseCIDR (Keyword d) = None →
  parseKeywords (pre ++ d :: post)
  = Some (inl ("could not parse cidr " +:+ Keyword d
               +:+ ": invalid CIDR address: " +:+ Keyword d)).
Proof.
  intros Hpre Hty Hn. apply parseKeywords_loop_first_error; [|done|done].
  by eapply parseKeywords_loop_all_compile.
Qed.

(** X3. The rule set holds, under each keyword, the rule of the last
    definition of the configuration with that keyword, and holds nothing
    under a keyword that no definition has: a later definition replaces
    an earlier one with the same keyword. *)
Theorem parseKeywords_last_definition_wins defs kws k :
  parseKeywords defs = Some (inr kws) →
  kws !! k = (d ← last_definition k defs; compile_rule d).
Proof.
  intros H. rewrite (parseKeywords_loop_lookup defs ∅ kws k H).
  by destruct (last_definition k defs).
Qed.

Lemma filter_keyword_short (k : string) (defs : list keyword) :
  NoDup (Keyword <$> defs) →
  (List.length (filter (fun d => Keyword d = k) defs) <= 1)%nat.
Proof.
  induction defs as [|d defs IH]; [simpl; lia|].
  rewrite fmap_cons. intros [Hd Hnd]%NoDup_cons. rewrite filter_cons.
  destruct (decide (Keyword d = k)) as [He|Hne]; [|by apply IH].
  assert (filter (fun d => Keyword d = k) defs = []) as ->; [|simpl; lia].
  destruct (filter (fun d => Keyword d = k) defs) as [|d' l] eqn:Hf; [done|].
  assert (d' ∈ filter (fun d => Keyword d = k) defs) as Hin by (rewrite Hf; by left).
  apply list_elem_of_filter in Hin as [Hk Hin].
  destruct Hd. apply list_elem_of_fmap. exists d'. split; [congruence|done].
Qed.

Lemma last_definition_perm k defs defs' :
  NoDup (Keyword <$> defs) → defs' ≡ₚ defs →
  last_definition k defs' = last_definition k defs.
Proof.
  intros Hnd Hp. unfold last_definition.
  pose proof (filter_keyword_short k defs Hnd) as Hlen.
  assert (filter (fun d => Keyword d = k) defs' ≡ₚ filter (fun d => Keyword d = k) defs) as Hf
    by (by rewrite Hp).
  destruct (filter (fun d => Keyword d = k) defs) as [|d [|d2 l]].
  - by apply Permutation_nil_r in Hf as ->.
  - by apply Permutation_singleton_r in Hf as ->.
  - simpl in Hlen. lia.
Qed.

(** X4. When no two definitions share a keyword, the order of the
    definitions in the configuration does not change the rule set. *)
Theorem parseKeywords_order_irrelevant defs defs' kws :
  parseKeywords defs = Some (inr kws) → NoDup (Keyword <$> defs) → defs' ≡ₚ defs →
  parseKeywords defs' = Some (inr kws).
Proof.
  intros Hk Hnd Hp.
  assert (Forall (fun d => is_Some (compile_rule d)) defs') as Hall.
  { rewrite Hp. by eapply parseKeywords_loop_all_compile. }
  destruct (parseKeywords_loop_ok defs' ∅ Hall) as [kws' Hk'].
  unfold parseKeywords. rewrite Hk'. do 2 f_equal. apply map_eq. intros k.
  rewrite (parseKeywords_loop_lookup defs' ∅ kws' k Hk'),
          (parseKeywords_loop_lookup defs ∅ kws k Hk).
  by rewrite (last_definition_perm k defs defs' Hnd Hp).
Qed.

Section Trim.
Import strings.

Lemma TrimLeft_space_length n s :
  (List.length s <= n)%nat → (List.length (TrimLeft_space s) <= List.length s)%nat.
Proof.
  revert s. induction n as [|n IH]; intros s Hn.
  - destruct s; [simpl; lia|simpl in Hn; lia].
  - destruct s as [|c1 [|c2 [|c3 s3]]]; cbn [TrimLeft_space]; simpl in Hn.
    + simpl; lia.
    + destruct (asciiSpace c1); simpl; lia.
    + destruct (asciiSpace c1).
      * specialize (IH [c2]). simpl in *. lia.
      * destruct (space2 c1 c2); simpl; lia.
    + destruct (asciiSpace c1).
      * specialize (IH (c2 :: c3 :: s3)). simpl in *. lia.
      * destruct (space2 c1 c2).
        -- specialize (IH (c3 :: s3)). simpl in *. lia.
        -- destruct (space3 c1 c2 c3); [|simpl; lia].
           specialize (IH s3). simpl in *. lia.
Qed.

Lemma TrimLeft_space_fixed c1 s1 :
  TrimLeft_space (c1 :: s1) = c1 :: s1 ↔
  asciiSpace c1 = false
  ∧ match s1 with
    | c2 :: s2 =>
        space2 c1 c2 = false
        ∧ match s2 with c3 :: _ => space3 c1 c2 c3 = false | [] => True end
    | [] => True
    end.
Proof.
  assert (∀ s t : list ascii, (List.length s < List.length t)%nat → TrimLeft_space s ≠ t) as Hlt.
  { intros s t Hl He. pose proof (TrimLeft_space_length _ s (Nat.le_refl _)) as H.
    rewrite He in H. lia. }
  cbn [TrimLeft_space]. destruct (asciiSpace c1).
  { split; [|by intros [? _]]. intros H. by apply Hlt in H; [|simpl; lia]. }
  destruct s1 as [|c2 s2]; [done|]. destruct (space2 c1 c2).
  { split; [|by intros [_ [? _]]]. intros H. by apply Hlt in H; [|simpl; lia]. }
  destruct s2 as [|c3 s3]; [done|]. destruct (space3 c1 c2 c3); [|done].
  split; [|by intros [_ [_ ?]]]. intros H. by apply Hlt in H; [|simpl; lia].
Qed.

Lemma TrimLeft_space_idem n s :
  (List.length s <= n)%nat → TrimLeft_space (TrimLeft_space s) = TrimLeft_space s.
Proof.
  revert s. induction n as [|n IH]; intros s Hn.
  - destruct s; [done|simpl in Hn; lia].
  - destruct s as [|c1 s1]; [done|].
    destruct (asciiSpace c1) eqn:E1.
    { cbn [TrimLeft_space]. rewrite E1. apply IH. simpl in Hn. lia. }
    destruct s1 as [|c2 s2].
    { assert (TrimLeft_space [c1] = [c1]) as Hfix by (by apply TrimLeft_space_fixed).
      by rewrite !Hfix. }
    destruct (space2 c1 c2) eqn:E2.
    { cbn [TrimLeft_space]. rewrite E1, E2. apply IH. simpl in Hn. lia. }
    destruct s2 as [|c3 s3].
    { assert (TrimLeft_space [c1; c2] = [c1; c2]) as Hfix by (by apply TrimLeft_space_fixed).
      by rewrite !Hfix. }
    destruct (space3 c1 c2 c3) eqn:E3.
    { cbn [TrimLeft_space]. rewrite E1, E2, E3. apply IH. simpl in Hn. lia. }
    assert (TrimLeft_space (c1 :: c2 :: c3 :: s3) = c1 :: c2 :: c3 :: s3) as Hfix
      by (by apply TrimLeft_space_fixed).
    by rewrite !Hfix.
Qed.

(** A prefix of a text without leading white space has none either. *)
Lemma TrimLeft_space_prefix p rest :
  TrimLeft_space (p ++ rest) = p ++ rest → TrimLeft_space p = p.
Proof.
  destruct p as [|c1 [|c2 [|c3 p]]]; [done|..]; cbn [app];
    intros H%TrimLeft_space_fixed; apply TrimLeft_space_fixed.
  - by destruct H.
  - destruct H as (? & ? & _). done.
  - done.
Qed.

Lemma TrimRight_space_rev_length n r :
  (List.length r <= n)%nat → (List.length (TrimRight_space_rev r) <= List.length r)%nat.
Proof.
  revert r. induction n as [|n IH]; intros s Hn.
  - destruct s; [simpl; lia|simpl in Hn; lia].
  - destruct s as [|c1 [|c2 [|c3 s3]]]; cbn [TrimRight_space_rev]; simpl in Hn.
    + simpl; lia.
    + destruct (asciiSpace c1); simpl; lia.
    + destruct (asciiSpace c1).
      * specialize (IH [c2]). simpl in *. lia.
      * destruct (space2 c2 c1); simpl; lia.
    + destruct (asciiSpace c1).
      * specialize (IH (c2 :: c3 :: s3)). simpl in *. lia.
      * destruct (space2 c2 c1).
        -- specialize (IH (c3 :: s3)). simpl in *. lia.
        -- destruct (space3 c3 c2 c1); [|simpl; lia].
           specialize (IH s3). simpl in *. lia.
Qed.

Lemma TrimRight_space_rev_fixed c1 s1 :
  TrimRight_space_rev (c1 :: s1) = c1 :: s1 ↔
  asciiSpace c1 = false
  ∧ match s1 with
    | c2 :: s2 =>
        space2 c2 c1 = false
        ∧ match s2 with c3 :: _ => space3 c3 c2 c1 = false | [] => True end
    | [] => True
    end.
Proof.
  assert (∀ s t : list ascii, (List.length s < List.length t)%nat → TrimRight_space_rev s ≠ t) as Hlt.
  { intros s t Hl He. pose proof (TrimRight_space_rev_length _ s (Nat.le_refl _)) as H.
    rewrite He in H. lia. }
  cbn [TrimRight_space_rev]. destruct (asciiSpace c1).
  { split; [|by intros [? _]]. intros H. by apply Hlt in H; [|simpl; lia]. }
  destruct s1 as [|c2 s2]; [done|]. destruct (space2 c2 c1).
  { split; [|by intros [_ [? _]]]. intros H. by apply Hlt in H; [|simpl; lia]. }
  destruct s2 as [|c3 s3]; [done|]. destruct (space3 c3 c2 c1); [|done].
  split; [|by intros [_ [_ ?]]]. intros H. by apply Hlt in H; [|simpl; lia].
Qed.

(** The right trim returns a tail of its (reversed) argument on which it
    does nothing more. *)
Lemma TrimRight_space_rev_spec n r :
  (List.length r <= n)%nat →
  (∃ cut, r = cut ++ TrimRight_space_rev r)
  ∧ TrimRight_space_rev (TrimRight_space_rev r) = TrimRight_space_rev r.
Proof.
  revert r. induction n as [|n IH]; intros s Hn.
  - destruct s; [|simpl in Hn; lia]. split; [by exists []|done].
  - destruct s as [|c1 s1]; [split; [by exists []|done]|].
    destruct (asciiSpace c1) eqn:E1.
    { cbn [TrimRight_space_rev]. rewrite E1.
      destruct (IH s1) as [[cut Hc] Hi]; [simpl in Hn; lia|].
      split; [|done]. exists (c1 :: cut). simpl. by f_equal. }
    destruct s1 as [|c2 s2].
    { assert (TrimRight_space_rev [c1] = [c1]) as Hfix by (by apply TrimRight_space_rev_fixed).
      rewrite !Hfix. split; [by exists []|done]. }
    destruct (space2 c2 c1) eqn:E2.
    { cbn [TrimRight_space_rev]. rewrite E1, E2.
      destruct (IH s2) as [[cut Hc] Hi]; [simpl in Hn; lia|].
      split; [|done]. exists (c1 :: c2 :: cut). simpl. by do 2 f_equal. }
    destruct s2 as [|c3 s3].
    { assert (TrimRight_space_rev [c1; c2] = [c1; c2]) as Hfix by (by apply TrimRight_space_rev_fixed).
      rewrite !Hfix. split; [by exists []|done]. }
    destruct (space3 c3 c2 c1) eqn:E3.
    { cbn [TrimRight_space_rev]. rewrite E1, E2, E3.
      destruct (IH s3) as [[cut Hc] Hi]; [simpl in Hn; lia|].
      split; [|done]. exists (c1 :: c2 :: c3 :: cut). simpl. by do 3 f_equal. }
    assert (TrimRight_space_rev (c1 :: c2 :: c3 :: s3) = c1 :: c2 :: c3 :: s3) as Hfix
      by (by apply TrimRight_space_rev_fixed).
    rewrite !Hfix. split; [by exists []|done].
Qed.

Lemma TrimSpace_bytes_idem s : TrimSpace_bytes (TrimSpace_bytes s) = TrimSpace_bytes s.
Proof.
  unfold TrimSpace_bytes.
  set (u := TrimLeft_space s).
  destruct (TrimRight_space_rev_spec _ (rev u) (Nat.le_refl _)) as [[cut Hcut] Hidem].
  assert (TrimLeft_space (rev (TrimRight_space_rev (rev u))) = rev (TrimRight_space_rev (rev u))) as ->.
  { apply (TrimLeft_space_prefix _ (rev cut)).
    rewrite <- rev_app_distr, <- Hcut, rev_involutive.
    subst u. apply (TrimLeft_space_idem _ s (Nat.le_refl _)). }
  by rewrite rev_involutive, Hidem.
Qed.

Lemma TrimSpace_idem s : TrimSpace (TrimSpace s) = TrimSpace s.
Proof.
  unfold TrimSpace. rewrite list_ascii_of_string_of_list_ascii.
  by rewrite TrimSpace_bytes_idem.
Qed.

End Trim.

#[local] Arguments regexp.FindStringSubmatch : simpl never.
#[local] Arguments strings.TrimSpace : simpl never.
#[local] Arguments strings.Contains : simpl never.
#[local] Arguments net.ParseIP : simpl never.
#[local] Arguments net.Contains : simpl never.

Lemma HasPrefix_bytes_spec s p :
  strings.HasPrefix_bytes s p = true ↔ ∃ post, s = p ++ post.
Proof.
  revert s. induction p as [|x p IH]; intros s.
  - split; [by exists s|by destruct s].
  - destruct s as [|y s]; simpl.
    + split; [done|]. by intros [post ?].
    + rewrite andb_true_iff, IH, Ascii.eqb_eq. split.
      * intros [-> [post ->]]. by exists post.
      * intros [post [= -> ->]]. split; [done|by exists post].
Qed.

Lemma Contains_bytes_spec s sub :
  strings.Contains_bytes s sub = true ↔ ∃ pre post, s = pre ++ sub ++ post.
Proof.
  induction s as [|y s IH]; cbn [strings.Contains_bytes].
  - rewrite orb_false_r, HasPrefix_bytes_spec. split.
    + intros [post H]. by exists [], post.
    + intros (pre & post & H). destruct pre; [by exists post|done].
  - rewrite orb_true_iff, HasPrefix_bytes_spec, IH. split.
    + intros [[post H]|(pre & post & ->)]; [by exists [], post|by exists (y :: pre), post].
    + intros (pre & post & H). destruct pre as [|z pre].
      * left. by exists post.
      * right. injection H as -> ->. by exists pre, post.
Qed.

(** X5. [checkExceptions] answers true exactly when one of the
    exceptions occurs in the string as a run of consecutive bytes, with
    the case of its letters as given. *)
Theorem checkExceptions_spec s exceptions :
  checkExceptions s exceptions = true
  ↔ ∃ x pre post, x ∈ exceptions ∧ bytes s = pre ++ bytes x ++ post.
Proof.
  induction exceptions as [|x0 exc IH]; simpl.
  - split; [done|]. by intros (x & _ & _ & ?%elem_of_nil & _).
  - destruct (strings.Contains s x0) eqn:Hc.
    + split; [|done]. intros _. apply Contains_bytes_spec in Hc as (pre & post & H).
      exists x0, pre, post. split; [by left|done].
    + rewrite IH. split.
      * intros (x & pre & post & Hin & H). exists x, pre, post. split; [by right|done].
      * intros (x & pre & post & [->|Hin]%elem_of_cons & H).
        -- assert (strings.Contains s x0 = true) as Ht
             by (apply Contains_bytes_spec; by exists pre, post).
           congruence.
        -- by exists x, pre, post.
Qed.

Lemma checkExceptions_empty_string s exceptions :
  "" ∈ exceptions → checkExceptions s exceptions = true.
Proof.
  intros Hin. apply checkExceptions_spec. exists "", [], (bytes s). by split.
Qed.

(** What a recorded text went through. *)
Lemma recorded_inv body v m :
  recorded body v = Some m →
  ∃ re s s1,
    regexp v = Some re ∧ regexp.FindStringSubmatch re body = Some s
    ∧ s !! 1%nat = Some s1 ∧ m = strings.TrimSpace s1
    ∧ if String.eqb (keywordType_ v) "ip"
      then ∃ ip n, net.ParseIP m = Some ip ∧ ipNet v = Some n ∧ net.Contains n ip = true
      else checkExceptions m (exceptions v) = false.
Proof.
  unfold recorded, rule_match, checkKeywords_body.
  destruct (regexp v) as [re|]; [|by rewrite ?lookup_empty].
  destruct (regexp.FindStringSubmatch re body) as [s|] eqn:Hs; [|done].
  destruct (s !! 1%nat) as [s1|] eqn:Hs1; [|done]. cbn [mbind option_bind].
  destruct (String.eqb (keywordType_ v) "ip").
  - destruct (net.ParseIP _) as [ip|] eqn:Hip; [|done].
    destruct (ipNet v) as [n|]; [|done]. cbn [mbind option_bind].
    destruct (net.Contains n ip) eqn:Hc; [|done].
    cbn [snd mbind option_bind mjoin option_join]. rewrite lookup_insert_eq. intros [= <-].
    exists re, s, s1. do 4 (split; [done|]). by exists ip, n.
  - destruct (checkExceptions _ _) eqn:Hc; [done|].
    cbn [negb snd mbind option_bind mjoin option_join]. rewrite lookup_insert_eq. intros [= <-].
    by exists re, s, s1.
Qed.

(** A result of [checkKeywords], rule by rule. *)
Lemma checkKeywords_Some_inv body (kws : gmap string keywordType) status found :
  checkKeywords body kws = Some (status, found) →
  (∀ k, found !! k = (v ← kws !! k; recorded body v))
  ∧ (status = true ↔ ∃ k v, kws !! k = Some v ∧ is_Some (recorded body v)).
Proof.
  intros Hres.
  assert (map_Forall (fun _ v => is_Some (rule_match body v)) kws) as Hall.
  { intros k v Hk. destruct (rule_match body v) eqn:Hv; [by eexists|].
    unfold checkKeywords in Hres.
    rewrite (checkKeywords_range_panic body _ _ k v) in Hres; [done| |done].
    by apply elem_of_map_to_list. }
  destruct (checkKeywords_any_order body kws (map_to_list kws) (reflexivity _) Hall)
    as (s' & f' & Hres' & Hf & Hs).
  unfold checkKeywords in Hres. rewrite Hres' in Hres. by injection Hres as -> ->.
Qed.

(** X6. Every text that [checkKeywords] records has no white space at
    either end and comes with the status true; under an "ip" rule it is
    an address that [net.ParseIP] reads and the network of the rule
    contains, under any other rule it contains none of the exceptions of
    the rule. *)
Theorem recorded_match_is_clean body (kws : gmap string keywordType) status found k m :
  checkKeywords body kws = Some (status, found) → found !! k = Some m →
  strings.TrimSpace m = m
  ∧ status = true
  ∧ ∃ v, kws !! k = Some v
      ∧ if String.eqb (keywordType_ v) "ip"
        then ∃ ip n, net.ParseIP m = Some ip ∧ ipNet v = Some n
                     ∧ net.Contains n ip = true
        else checkExceptions m (exceptions v) = false.
Proof.
  intros [Hf Hs]%checkKeywords_Some_inv Hm. rewrite Hf in Hm.
  destruct (kws !! k) as [v|] eqn:Hk; [|done]. simpl in Hm.
  destruct (recorded_inv body v m Hm) as (re & s & s1 & _ & _ & _ & -> & Hrest).
  split; [apply TrimSpace_idem|]. split.
  - apply Hs. exists k, v. split; [done|]. by rewrite Hm.
  - by exists v.
Qed.

(** X7. The status that [checkKeywords] returns is true exactly when
    the map of matches is not empty, and every key of that map is a key
    of the rule set. *)
Theorem match_flag_and_keys body (kws : gmap string keywordType) status found :
  checkKeywords body kws = Some (status, found) →
  (status = true ↔ found ≠ ∅) ∧ dom found ⊆ dom kws.
Proof.
  intros [Hf Hs]%checkKeywords_Some_inv. split.
  - rewrite Hs. split.
    + intros (k & v & Hk & [m Hm]) He. specialize (Hf k).
      rewrite He, lookup_empty, Hk in Hf. simpl in Hf. congruence.
    + intros Hne. apply map_choose in Hne as (k & m & Hm).
      rewrite Hf in Hm. destruct (kws !! k) as [v|] eqn:Hk; [|done].
      exists k, v. split; [done|]. by exists m.
  - intros k [m Hm]%elem_of_dom. rewrite Hf in Hm. apply elem_of_dom.
    destruct (kws !! k); [by eexists|done].
Qed.

(** X8. [checkKeywords] panics on a body exactly when one of the rules
    of the set, taken alone, panics on it: no rule is skipped once
    another has matched, and no rule shields another. *)
Theorem checkKeywords_panics_iff body (kws : gmap string keywordType) :
  checkKeywords body kws = None
  ↔ ∃ k v, kws !! k = Some v ∧ checkKeywords body {[k := v]} = None.
Proof.
  assert (∀ k v, checkKeywords body {[k := v]} = None ↔ rule_match body v = None) as Hone.
  { intros k v. rewrite checkKeywords_singleton. by destruct (rule_match body v) as [[?|]|]. }
  split.
  - intros Hnone.
    destruct (decide (map_Forall (fun _ v => is_Some (rule_match body v)) kws)) as [Hall|Hnot].
    + destruct (checkKeywords_any_order body kws (map_to_list kws) (reflexivity _) Hall)
        as (s' & f' & Hres' & _). unfold checkKeywords in Hnone. congruence.
    + apply map_not_Forall in Hnot as (k & v & Hk & Hv); [|apply _].
      exists k, v. split; [done|]. apply Hone. by apply eq_None_not_Some.
  - intros (k & v & Hk & Hv%Hone). unfold checkKeywords.
    apply (checkKeywords_range_panic body _ _ k v); [|done]. by apply elem_of_map_to_list.
Qed.

(** X9. A rule that is no "ip" rule and lists the empty string among
    its exceptions never records a match: [strings.Contains] finds the
    empty string in every text. *)
Theorem empty_exception_mutes_rule body (kws : gmap string keywordType) status found k v :
  checkKeywords body kws = Some (status, found) → kws !! k = Some v →
  String.eqb (keywordType_ v) "ip" = false → "" ∈ exceptions v →
  found !! k = None.
Proof.
  intros [Hf _]%checkKeywords_Some_inv Hk Hty Hin. rewrite Hf, Hk. simpl.
  destruct (recorded body v) as [m|] eqn:Hm; [|done].
  destruct (recorded_inv body v m Hm) as (_ & _ & _ & _ & _ & _ & _ & Hrest).
  rewrite Hty in Hrest. by rewrite checkExceptions_empty_string in Hrest.
Qed.

(** X10. For a "string" rule of a compiled rule set whose keyword is
    made of 7-bit characters other than the newline, and for a body of
    any bytes, [checkKeywords] never panics, and what it records under
    the keyword is decided by the first line that holds the keyword, up
    to case as [(?i)] folds it, right after a word boundary: nothing if
    there is no such line or if the trimmed line contains an exception,
    the trimmed line otherwise.  Later lines are not looked at. *)
Theorem literal_rule_result defs kws k v body :
  parseKeywords defs = Some (inr kws) → kws !! k = Some v → keywordType_ v = "string" →
  seven_bit (bytes k) = true → one_line (bytes k) = true →
  ∃ status found,
    checkKeywords body kws = Some (status, found)
    ∧ found !! k =
        (l ← first_keyword_line k body;
         if checkExceptions (strings.TrimSpace l) (exceptions v) then None
         else Some (strings.TrimSpace l)).
Proof.
  intros Hp Hk Ht _ Hone.
  pose proof (compiled_literal k v (parseKeywords_compiled defs kws Hp k v Hk) Ht) as Hv.
  destruct (checkKeywords_compiled body defs kws (map_to_list kws) Hp (reflexivity _))
    as (status & found & Hres & Hfound & _).
  exists status, found. split; [done|].
  rewrite Hfound, Hk. simpl. unfold recorded. rewrite Hv at 1.
  by rewrite rule_match_literal.
Qed.

Section Addresses.
Import net.

Lemma parseIPv4Fields_loop_length s prev val pos digLen fields f :
  parseIPv4Fields_loop s prev val pos digLen fields = Some f →
  List.length f = List.length fields.
Proof.
  revert prev val pos digLen fields.
  induction s as [|x s IH]; intros prev val pos digLen fields; cbn [parseIPv4Fields_loop].
  - destruct (pos <? 3)%nat; [done|]. intros [= <-]. apply length_insert.
  - destruct (is_digit x).
    + destruct (_ && _); [done|]. destruct (255 <? _)%Z; [done|]. apply IH.
    + destruct (is_dot x); [|done]. destruct prev as [y|]; [|done].
      destruct s as [|x' s']; [done|]. destruct (is_dot y); [done|].
      destruct (pos =? 3)%nat; [done|]. intros H%IH. by rewrite length_insert in H.
Qed.

Lemma parseIPv4Fields_length s f : parseIPv4Fields s = Some f → List.length f = 4%nat.
Proof. apply parseIPv4Fields_loop_length. Qed.

(** A byte that is a digit is none of the bytes ParseAddr looks for. *)
Lemma digit_plain x :
  is_digit x = true →
  is_dot x = false ∧ is_colon x = false ∧ Ascii.eqb x "%" = false ∧ Ascii.eqb x "/" = false.
Proof.
  intros H.
  assert (∃ n, (n < 10)%nat ∧ x = ascii_of_nat (48 + n)) as (n & Hn & ->).
  { exists (nat_of_ascii x - 48)%nat.
    destruct x as [[] [] [] [] [] [] [] []]; try discriminate H; vm_compute; by split; [lia|]. }
  do 10 (destruct n as [|n]; [by vm_compute|]). lia.
Qed.

Lemma ParseAddr_scan_digits s d rest :
  forallb is_digit d = true →
  ParseAddr_scan s (d ++ "."%char :: rest) = Addr4 <$> parseIPv4Fields s.
Proof.
  induction d as [|x d IH]; [done|]. simpl. intros [Hx Hd]%andb_prop.
  destruct (digit_plain x Hx) as (-> & -> & -> & _). by apply IH.
Qed.

Lemma octet_digits a d r : octet a = Some (d, r) → forallb is_digit d = true ∧ a = d ++ r.
Proof.
  unfold octet. pose proof (digits_all a) as Hall. pose proof (digits_app a) as Happ.
  destruct (digits a) as [d0 r0]. destruct (_ && _); [|done]. by intros [= <- <-].
Qed.

Lemma expect_dot_Some a r : expect_dot a = Some r → a = "."%char :: r.
Proof.
  destruct a as [|c a]; [done|]. simpl.
  destruct (Ascii.eqb_spec c ".") as [->|]; [|done]. by intros [= ->].
Qed.

(** The shape of a dotted quad: digits and dots, digits first. *)
Lemma quad_here_shape b a q :
  quad_here b a = Some q →
  ∃ d rest, q = d ++ "."%char :: rest ∧ forallb is_digit d = true
            ∧ forallb (fun x => is_digit x || is_dot x) q = true.
Proof.
  unfold quad_here. destruct (regexp.head_is_word b); [done|].
  destruct (octet a) as [[d1 r1]|] eqn:E1; [|done]. simpl.
  destruct (expect_dot r1) as [r1'|]; [|done]. simpl.
  destruct (octet r1') as [[d2 r2]|] eqn:E2; [|done]. simpl.
  destruct (expect_dot r2) as [r2'|]; [|done]. simpl.
  destruct (octet r2') as [[d3 r3]|] eqn:E3; [|done]. simpl.
  destruct (expect_dot r3) as [r3'|]; [|done]. simpl.
  destruct (octet r3') as [[d4 r4]|] eqn:E4; [|done]. simpl.
  destruct (regexp.head_is_word r4); [done|]. intros [= <-].
  apply octet_digits in E1 as [H1 _], E2 as [H2 _], E3 as [H3 _], E4 as [H4 _].
  exists d1, (d2 ++ "."%char :: d3 ++ "."%char :: d4). split; [done|]. split; [done|].
  assert (∀ d, forallb is_digit d = true →
               forallb (fun x => is_digit x || is_dot x) d = true) as Hd.
  { intros d Hd. rewrite forallb_forall in Hd |- *. intros x Hx. by rewrite Hd. }
  rewrite !forallb_app. cbn [forallb]. rewrite !forallb_app. cbn [forallb].
  rewrite !forallb_app. cbn [forallb]. rewrite !Hd by done. done.
Qed.

Lemma first_quad_from_shape b a q :
  first_quad_from b a = Some q →
  ∃ d rest, q = d ++ "."%char :: rest ∧ forallb is_digit d = true
            ∧ forallb (fun x => is_digit x || is_dot x) q = true.
Proof.
  revert b. induction a as [|x a IH]; intros b; simpl.
  - destruct (quad_here b []) eqn:E; [|done]. intros [= <-]. by eapply quad_here_shape.
  - destruct (quad_here b (x :: a)) eqn:E.
    + intros [= <-]. by eapply quad_here_shape.
    + apply IH.
Qed.

(** A dotted quad that parses is an IPv4 address in its 16-byte form. *)
Lemma ParseIP_quad body q ip :
  first_dotted_quad body = Some q → ParseIP q = Some ip →
  ∃ f, List.length f = 4%nat ∧ parseIPv4Fields (bytes q) = Some f
       ∧ ip = v4InV6Prefix ++ f.
Proof.
  unfold first_dotted_quad, ParseIP, ParseAddr.
  destruct (first_quad_from [] (bytes body)) as [q0|] eqn:E; [|done]. intros [= <-].
  rewrite list_ascii_of_string_of_list_ascii.
  destruct (first_quad_from_shape _ _ _ E) as (d & rest & Hq & Hd & _).
  rewrite Hq at 2. rewrite ParseAddr_scan_digits by done.
  destruct (parseIPv4Fields q0) as [f|] eqn:Hf; [|done]. simpl. intros [= <-].
  exists f. split; [by eapply parseIPv4Fields_length|done].
Qed.

Lemma To4_v4InV6 f : List.length f = 4%nat → To4 (v4InV6Prefix ++ f) = Some f.
Proof. destruct f as [|a [|b [|c [|d [|]]]]]; done. Qed.

Lemma To4_length ip x : To4 ip = Some x → List.length x = 4%nat.
Proof.
  unfold To4. destruct (List.length ip =? IPv4len)%nat eqn:E.
  - intros [= <-]. by apply Nat.eqb_eq in E.
  - destruct (_ && _) eqn:E2; [|done]. intros [= <-].
    apply andb_prop in E2 as [[[E2 _]%andb_prop _]%andb_prop _]. apply Nat.eqb_eq in E2.
    rewrite length_take, length_drop, E2. done.
Qed.

(** A network whose address is no IPv4 address holds no IPv4 address. *)
Lemma Contains_no_v4_network n f :
  To4 (IP_ n) = None → List.length f = 4%nat → Contains n (v4InV6Prefix ++ f) = false.
Proof.
  intros Hn Hf. unfold Contains, networkNumberAndMask. rewrite Hn, (To4_v4InV6 f Hf).
  destruct (List.length (IP_ n) =? IPv6len)%nat eqn:E6.
  - apply Nat.eqb_eq in E6.
    destruct (List.length (Mask n) =? IPv4len)%nat.
    + rewrite E6. cbn. by rewrite Hf.
    + destruct (List.length (Mask n) =? IPv6len)%nat.
      * rewrite E6. cbn. by rewrite Hf, E6.
      * cbn. by rewrite Hf.
  - cbn. by rewrite Hf.
Qed.

End Addresses.

#[local] Arguments regexp.FindStringSubmatch : simpl never.
#[local] Arguments strings.TrimSpace : simpl never.
#[local] Arguments net.ParseIP : simpl never.
#[local] Arguments net.Contains : simpl never.
#[local] Arguments Z.land : simpl never.
#[local] Arguments Z.eqb : simpl never.

(** X11. A cidr rule whose network address is no IPv4 address (an IPv6
    network, which [parseKeywords] accepts) never records a match: the
    pattern only finds dotted quads, and [net.Contains] refuses an IPv4
    address for such a network. *)
Theorem ipv6_network_rule_never_matches body (kws : gmap string keywordType)
    status found k n exc :
  checkKeywords body kws = Some (status, found) →
  kws !! k = Some (cidr_rule n exc) → net.To4 (net.IP_ n) = None →
  found !! k = None.
Proof.
  intros [Hf _]%checkKeywords_Some_inv Hk Hn. rewrite Hf, Hk. simpl.
  unfold recorded. rewrite rule_match_cidr. simpl.
  destruct (first_dotted_quad body) as [q|] eqn:Hq; [|done]. simpl.
  destruct (net.ParseIP q) as [ip|] eqn:Hip; [|done]. simpl.
  destruct (ParseIP_quad body q ip Hq Hip) as (f & Hlen & _ & ->).
  by rewrite Contains_no_v4_network.
Qed.

Section OwnAddress.
Import net.

Lemma bytes_app s1 s2 : bytes (s1 +:+ s2) = bytes s1 ++ bytes s2.
Proof. induction s1 as [|c s1 IH]; [done|]. simpl. by rewrite IH. Qed.

Lemma index_slash_quad a bits pre :
  forallb (fun x => is_digit x || is_dot x) a = true →
  index_slash (a ++ "/"%char :: bits) pre = Some (rev pre ++ a, bits).
Proof.
  revert pre. induction a as [|x a IH]; intros pre Ha.
  - simpl. by rewrite app_nil_r.
  - simpl in Ha. apply andb_prop in Ha as [Hx Ha]. cbn [app index_slash].
    assert (Ascii.eqb x "/" = false) as ->.
    { apply orb_prop in Hx as [Hx|Hx]; [by apply digit_plain|].
      unfold is_dot in Hx. by apply Ascii.eqb_eq in Hx as ->. }
    rewrite IH by done. simpl. by rewrite <- app_assoc.
Qed.

Lemma CIDRMask_bytes_length l n : List.length (CIDRMask_bytes l n) = l.
Proof.
  revert n. induction l as [|l IH]; intros n; [done|]. cbn [CIDRMask_bytes].
  destruct (8 <=? n)%nat; cbn [List.length]; by rewrite IH.
Qed.

Lemma IP_Mask_v4 f m :
  List.length f = 4%nat → List.length m = 4%nat →
  IP_Mask (v4InV6Prefix ++ f) m = Some (zip_with Z.land f m).
Proof.
  destruct f as [|a1 [|a2 [|a3 [|a4 [|]]]]]; try done.
  destruct m as [|m1 [|m2 [|m3 [|m4 [|]]]]]; try done.
Qed.

Lemma Contains_masked f m :
  List.length f = 4%nat → List.length m = 4%nat →
  Contains {| IP_ := zip_with Z.land f m; Mask := m |} (v4InV6Prefix ++ f) = true.
Proof.
  intros Hf Hm. unfold Contains, networkNumberAndMask. rewrite (To4_v4InV6 f Hf).
  destruct f as [|a1 [|a2 [|a3 [|a4 [|]]]]]; try done.
  destruct m as [|m1 [|m2 [|m3 [|m4 [|]]]]]; try done.
  cbn. by rewrite <- !Z.land_assoc, !Z.land_diag, !Z.eqb_refl.
Qed.

(** An IPv4 network read from [addr/bits] contains [addr]. *)
Lemma ParseCIDR_contains_address body addr bits n :
  first_dotted_quad body = Some addr →
  ParseCIDR (addr +:+ "/" +:+ bits) = Some n →
  ∃ ip, ParseIP addr = Some ip ∧ Contains n ip = true.
Proof.
  intros Hq. unfold ParseCIDR. rewrite !bytes_app.
  assert (∃ d rest, bytes addr = d ++ "."%char :: rest ∧ forallb is_digit d = true
            ∧ forallb (fun x => is_digit x || is_dot x) (bytes addr) = true)
    as (d & rest & Hshape & Hd & Hall).
  { unfold first_dotted_quad in Hq.
    destruct (first_quad_from [] (bytes body)) as [q0|] eqn:E; [|done].
    injection Hq as <-. rewrite list_ascii_of_string_of_list_ascii.
    by eapply first_quad_from_shape. }
  change (bytes "/" ++ bytes bits) with ("/"%char :: bytes bits).
  rewrite index_slash_quad by done. cbn [rev app].
  unfold ParseAddr. rewrite Hshape at 2. rewrite ParseAddr_scan_digits by done.
  destruct (parseIPv4Fields (bytes addr)) as [f|] eqn:Hf; [|done]. cbn [fmap option_fmap option_map].
  destruct (dtoi (bytes bits)) as [[nn i] ok]. destruct (_ || _); [done|].
  intros [= <-].
  exists (v4InV6Prefix ++ f). split.
  { unfold ParseIP, ParseAddr. rewrite Hshape at 2. rewrite ParseAddr_scan_digits by done.
    by rewrite Hf. }
  pose proof (parseIPv4Fields_length _ _ Hf) as Hlen.
  pose proof (CIDRMask_bytes_length 4 (Z.to_nat nn)) as Hm.
  cbn [BitLen As16]. unfold CIDRMask. change (32 / 8)%nat with 4%nat.
  change (0 :: 0 :: 0 :: 0 :: 0 :: 0 :: 0 :: 0 :: 0 :: 0 :: 255 :: 255 :: f)%Z
    with (v4InV6Prefix ++ f).
  rewrite IP_Mask_v4 by done. cbn [default]. by apply Contains_masked.
Qed.

End OwnAddress.

(** X12. A cidr rule written [addr/bits] matches every body whose first
    dotted quad is [addr] itself: the match is recorded under the keyword
    and the status is true. *)
Theorem cidr_rule_matches_own_address defs kws addr bits v body :
  parseKeywords defs = Some (inr kws) → kws !! (addr +:+ "/" +:+ bits) = Some v →
  keywordType_ v = "ip" → first_dotted_quad body = Some addr →
  ∃ found, checkKeywords body kws = Some (true, found)
           ∧ found !! (addr +:+ "/" +:+ bits) = Some addr.
Proof.
  intros Hp Hk Ht Hq.
  destruct (compiled_cidr _ v (parseKeywords_compiled defs kws Hp _ v Hk) Ht) as (n & Hn & Hv).
  destruct (ParseCIDR_contains_address body addr bits n Hq Hn) as (ip & Hip & Hc).
  destruct (checkKeywords_compiled body defs kws (map_to_list kws) Hp (reflexivity _))
    as (status & found & Hres & Hfound & Hstatus).
  assert (recorded body v = Some addr) as Hrec.
  { unfold recorded. rewrite Hv, rule_match_cidr, Hq. simpl. rewrite Hip. simpl. by rewrite Hc. }
  assert (status = true) as ->.
  { apply Hstatus. eexists _, v. split; [done|]. by rewrite Hrec. }
  exists found. split; [done|]. by rewrite Hfound, Hk.
Qed.

(** ** The seen-set and the poll cycle, continued *)

(** X13. Two clean-ups of the seen-set in a row amount to one with the
    later threshold, and a clean-up only removes entries: what it keeps
    is in the set it started from, with the same instant. *)
Theorem seen_evict_compose (a b : Z) (m : gmap string Z) :
  seen_evict a (seen_evict b m) = seen_evict (Z.max a b) m
  ∧ seen_evict a m ⊆ m.
Proof.
  split.
  - apply map_eq. intros k. rewrite !seen_evict_lookup_eq.
    destruct (m !! k) as [t|]; simpl; [|done].
    destruct (decide (t < b)%Z) as [Hb|Hb].
    + rewrite (bool_decide_eq_true_2 _ Hb). simpl.
      rewrite bool_decide_eq_true_2; [done|lia].
    + rewrite (bool_decide_eq_false_2 _ Hb). simpl.
      destruct (decide (t < a)%Z) as [Ha|Ha].
      * rewrite (bool_decide_eq_true_2 _ Ha). rewrite bool_decide_eq_true_2; [done|lia].
      * rewrite (bool_decide_eq_false_2 _ Ha). rewrite bool_decide_eq_false_2; [done|lia].
  - apply map_filter_subseteq.
Qed.

Lemma size_new_key (kp : string) (K D : gset string) :
  kp ∉ D → size (({[kp]} ∪ K) ∖ D) = S (size (K ∖ ({[kp]} ∪ D))).
Proof.
  intros Hnin.
  assert (({[kp]} ∪ K) ∖ D = {[kp]} ∪ (K ∖ ({[kp]} ∪ D))) as ->.
  { apply set_eq. intros x. rewrite !elem_of_union, !elem_of_difference,
      !elem_of_union, !elem_of_singleton.
    destruct (decide (x = kp)) as [->|Hne]; tauto. }
  rewrite size_union, size_singleton; [done|].
  apply disjoint_singleton_l. rewrite elem_of_difference, elem_of_union, elem_of_singleton.
  tauto.
Qed.

Lemma difference_known_key (kp : string) (K D : gset string) :
  kp ∈ D → ({[kp]} ∪ K) ∖ D = K ∖ D.
Proof.
  intros Hin. apply set_eq. intros x.
  rewrite !elem_of_difference, elem_of_union, elem_of_singleton.
  split; [|tauto]. intros [[->|Hx] Hn]; [done|by split].
Qed.

Section PollCycle.

Variable paste : Type.
Variable Key : paste -> string.
Variable fetchPasteList : Z -> (string + list paste) * Z.
Variable fetch : paste -> gmap string keywordType -> Z -> (string + option paste) * Z.
Variable keywords : gmap string keywordType.

(** The trace of one item: nothing for a key in the seen-set, one block
    otherwise. *)
Lemma visit_trace (st : loop_state paste) (p : paste) :
  lastCheck (visit Key fetch keywords st p) = lastCheck st
  ∧ ∃ evs, events (visit Key fetch keywords st p) = events st ++ evs
      ∧ if seen_has (alredyChecked st) (Key p) then evs = []
        else ∃ msg, evs = EvFetch (Key p) :: msg ++ [EvSleep second]
                    ∧ (msg = [] ∨ (∃ e, msg = [EvError e]) ∨ (∃ p2, msg = [EvOutput p2])).
Proof.
  unfold visit. destruct (seen_has (alredyChecked st) (Key p)).
  - split; [done|]. exists []. by rewrite app_nil_r.
  - cbn [now with_seen]. destruct (fetch p keywords (now st)) as [res t].
    destruct res as [err|[p2|]]; (split; [done|]);
      cbn [events sleep advance emit with_seen]; rewrite <- ?app_assoc;
      eexists; (split; [reflexivity|]).
    + exists [EvError ("fetch: " +:+ err)]. split; [done|]. right. left. by eexists.
    + exists [EvOutput p2]. split; [done|]. right. right. by eexists.
    + exists []. split; [done|]. by left.
Qed.

Lemma paced_block (key : string) (msg rest : list (event paste)) :
  (msg = [] ∨ (∃ e, msg = [EvError e]) ∨ (∃ p2, msg = [EvOutput p2])) →
  paced (EvFetch key :: msg ++ [EvSleep second] ++ rest) = paced rest.
Proof. intros [->|[[e ->]|[p2 ->]]]; done. Qed.

Lemma visit_all_trace (pastes : list paste) (st : loop_state paste) :
  lastCheck (visit_all Key fetch keywords st pastes) = lastCheck st
  ∧ ∃ evs, events (visit_all Key fetch keywords st pastes) = events st ++ evs
      ∧ paced evs = true
      ∧ List.length (List.filter is_fetch evs)
        = size (list_to_set (Key <$> pastes) ∖ dom (alredyChecked st) : gset string).
Proof.
  revert st. induction pastes as [|p pastes IH]; intros st.
  - split; [done|]. exists []. rewrite app_nil_r. split; [done|]. split; [done|].
    cbn. assert ((∅ ∖ dom (alredyChecked st) : gset string) = ∅) as ->.
    { apply set_eq. intros x. rewrite elem_of_difference, elem_of_empty. tauto. }
    by rewrite size_empty.
  - cbn [visit_all foldl].
    destruct (visit_trace st p) as (Hlc & evs1 & Hev1 & Hcase).
    destruct (visit_effect paste Key fetch keywords st p) as (Hseen & _).
    destruct (IH (visit Key fetch keywords st p)) as (Hlc2 & evs2 & Hev2 & Hp2 & Hc2).
    unfold visit_all in Hlc2, Hev2. split; [by rewrite Hlc2|].
    exists (evs1 ++ evs2). split; [rewrite Hev2, Hev1; by rewrite app_assoc|].
    rewrite Hseen in Hc2. unfold seen_visit in Hc2. rewrite fmap_cons, list_to_set_cons.
    destruct (seen_has (alredyChecked st) (Key p)) eqn:Hp.
    + subst evs1. cbn [app]. split; [done|]. rewrite Hc2.
      apply seen_has_true, elem_of_dom in Hp. by rewrite difference_known_key.
    + destruct Hcase as (msg & -> & Hmsg). split.
      * cbn [app]. rewrite <- app_assoc. by rewrite paced_block.
      * assert (List.length (List.filter is_fetch ((EvFetch (Key p) :: msg ++ [EvSleep second]) ++ evs2))
                = S (List.length (List.filter is_fetch evs2))) as ->.
        { destruct Hmsg as [->|[[e ->]|[p2 ->]]]; done. }
        rewrite Hc2. unfold seen_mark. rewrite dom_insert_L.
        assert (Key p ∉ dom (alredyChecked st)) as Hnin.
        { intros Hd%elem_of_dom%seen_has_true. congruence. }
        by rewrite size_new_key.
Qed.

Lemma wait_interval (st : loop_state paste) :
  lastCheck (wait st) = now (wait st)
  ∧ (lastCheck st + minute <= now (wait st))%Z
  ∧ (now st <= now (wait st))%Z.
Proof.
  unfold wait. destruct (0 <? lastCheck st + minute - now st)%Z eqn:E; cbn.
  - apply Z.ltb_lt in E. lia.
  - apply Z.ltb_ge in E. lia.
Qed.

(** X14. A cycle sets [lastCheck] to the instant at which its wait
    ends, and that instant is at least one minute after the previous
    [lastCheck], whether the listing succeeds or fails. *)
Theorem poll_interval (st : loop_state paste) :
  (lastCheck st + minute <= lastCheck (cycle Key fetchPasteList fetch keywords st))%Z
  ∧ lastCheck (cycle Key fetchPasteList fetch keywords st) = now (wait st).
Proof.
  destruct (wait_interval st) as (Hlc & Hmin & _).
  assert (lastCheck (cycle Key fetchPasteList fetch keywords st) = lastCheck (wait st)) as Heq.
  { unfold cycle. destruct (fetchPasteList (now (wait st))) as [[err|pastes] t]; [done|].
    cbn [lastCheck with_seen].
    by destruct (visit_all_trace pastes (advance t (emit EvList (wait st)))) as [-> _]. }
  rewrite Heq, Hlc. by split.
Qed.

(** X15. The item loop emits a sequence of blocks, each one a fetch, at
    most one message (an error or an output) and a sleep of one second;
    the number of fetches is the number of distinct listed keys that are
    not in the seen-set when the loop starts. *)
Theorem item_loop_paced (st : loop_state paste) (pastes : list paste) :
  paced (new_events st (visit_all Key fetch keywords st pastes)) = true
  ∧ List.length (List.filter is_fetch
                   (new_events st (visit_all Key fetch keywords st pastes)))
    = size (list_to_set (Key <$> pastes) ∖ dom (alredyChecked st) : gset string).
Proof.
  destruct (visit_all_trace pastes st) as (_ & evs & Hev & Hp & Hc).
  by rewrite (new_events_app paste st _ evs Hev).
Qed.

(** X16. The item loop keeps every entry of the seen-set with the
    instant it had (a listed key that is already there is not stamped
    again), and the keys of the set afterwards are the keys before and
    the listed keys. *)
Theorem item_loop_keeps_first_seen (st : loop_state paste) (pastes : list paste) :
  alredyChecked st ⊆ alredyChecked (visit_all Key fetch keywords st pastes)
  ∧ dom (alredyChecked (visit_all Key fetch keywords st pastes))
    = dom (alredyChecked st) ∪ list_to_set (Key <$> pastes).
Proof. apply visit_all_seen_set. Qed.

(** X17. After a cycle whose listing succeeded, every entry of the
    seen-set is at most ten minutes old at the end of the cycle, and is
    either an entry the set had before the cycle, unchanged, or the entry
    of a listed key that was not in the set. *)
Theorem cycle_bounded_staleness (st : loop_state paste) (pastes : list paste) (t : Z)
    (k : string) (ts : Z) :
  fetchPasteList (now (wait st)) = (inr pastes, t) →
  alredyChecked (cycle Key fetchPasteList fetch keywords st) !! k = Some ts →
  (now (cycle Key fetchPasteList fetch keywords st) - 10 * minute <= ts)%Z
  ∧ (alredyChecked st !! k = Some ts
     ∨ (alredyChecked st !! k = None ∧ k ∈ Key <$> pastes)).
Proof.
  intros Hlist. unfold cycle. rewrite Hlist. cbn [alredyChecked now with_seen].
  set (st1 := advance t (emit EvList (wait st))).
  intros [Hk Hts]%seen_evict_lookup. split; [lia|].
  destruct (visit_all_seen_set paste Key fetch keywords st1 pastes) as [Hsub Hdom].
  assert (alredyChecked st1 = alredyChecked st) as Hst1.
  { subst st1. cbn [alredyChecked advance emit]. by destruct (wait_effect paste st) as [-> _]. }
  rewrite Hst1 in Hsub, Hdom.
  destruct (alredyChecked st !! k) as [ts0|] eqn:E.
  - left. rewrite (lookup_weaken _ _ _ _ E Hsub) in Hk. congruence.
  - right. split; [done|].
    assert (k ∈ dom (alredyChecked (visit_all Key fetch keywords st1 pastes))) as Hin
      by (apply elem_of_dom; by eexists).
    rewrite Hdom in Hin. apply elem_of_union in Hin as [Hin|Hin].
    + apply elem_of_dom in Hin as [? ?]. congruence.
    + by apply elem_of_list_to_set in Hin.
Qed.

End PollCycle.

(** ** Instances of the further properties *)

Lemma parseKeywords_reports_first_bad_cidr_witness :
  parseKeywords cidr_defs = Some (inr cidr_rules)
  ∧ net.ParseCIDR "10.0.0.0/40" = None
  ∧ parseKeywords broken_defs
    = Some (inl "could not parse cidr 10.0.0.0/40: invalid CIDR address: 10.0.0.0/40").
Proof.
  split; [by_evaluation|]. split; [by_evaluation|].
  apply (parseKeywords_reports_first_bad_cidr cidr_defs
           {| Keyword := "10.0.0.0/40"; Type_ := "cidr"; Exceptions := [] |} []
           cidr_rules).
  - by_evaluation.
  - reflexivity.
  - by_evaluation.
Defined.

Lemma parseKeywords_last_definition_wins_witness :
  parseKeywords redefined_defs = Some (inr bare_password_rules)
  ∧ bare_password_rules !! "password"
    = (d ← last_definition "password" redefined_defs; compile_rule d).
Proof.
  split; [by_evaluation|].
  apply (parseKeywords_last_definition_wins redefined_defs bare_password_rules).
  by_evaluation.
Defined.

Lemma parseKeywords_order_irrelevant_witness :
  parseKeywords mixed_defs = Some (inr mixed_rules)
  ∧ parseKeywords mixed_defs_swapped = Some (inr mixed_rules).
Proof.
  split; [by_evaluation|].
  apply (parseKeywords_order_irrelevant mixed_defs mixed_defs_swapped mixed_rules).
  - by_evaluation.
  - apply (bool_decide_unpack _). by_evaluation.
  - apply perm_swap.
Defined.

Lemma recorded_match_is_clean_witness :
  checkKeywords "contact ip 10.5.5.5 for access" cidr_rules
  = Some (true, {[ "10.0.0.0/8" := "10.5.5.5" ]})
  ∧ strings.TrimSpace "10.5.5.5" = "10.5.5.5"
  ∧ ∃ v, cidr_rules !! "10.0.0.0/8" = Some v
      ∧ if String.eqb (keywordType_ v) "ip"
        then ∃ ip n, net.ParseIP "10.5.5.5" = Some ip ∧ ipNet v = Some n
                     ∧ net.Contains n ip = true
        else checkExceptions "10.5.5.5" (exceptions v) = false.
Proof.
  split; [by_evaluation|].
  destruct (recorded_match_is_clean "contact ip 10.5.5.5 for access" cidr_rules true
              {[ "10.0.0.0/8" := "10.5.5.5" ]} "10.0.0.0/8" "10.5.5.5")
    as (Htrim & _ & Hrule).
  - by_evaluation.
  - by_evaluation.
  - split; [exact Htrim|exact Hrule].
Defined.

Lemma match_flag_and_keys_witness :
  checkKeywords "my password is hunter2" mixed_rules
  = Some (true, {[ "password" := "my password is hunter2" ]})
  ∧ (true = true ↔ ({[ "password" := "my password is hunter2" ]} : gmap string string) ≠ ∅)
  ∧ dom ({[ "password" := "my password is hunter2" ]} : gmap string string)
    ⊆ dom mixed_rules.
Proof.
  split; [by_evaluation|].
  apply (match_flag_and_keys "my password is hunter2" mixed_rules).
  by_evaluation.
Defined.

Lemma empty_exception_mutes_rule_witness :
  checkKeywords "my password is hunter2" muted_rules = Some (false, ∅)
  ∧ (∅ : gmap string string) !! "password" = None.
Proof.
  split; [by_evaluation|].
  apply (empty_exception_mutes_rule "my password is hunter2" muted_rules false ∅
           "password" (literal_rule "password" [""])).
  - by_evaluation.
  - by_evaluation.
  - reflexivity.
  - by_membership.
Defined.

Lemma literal_rule_result_witness :
  parseKeywords bare_password_defs = Some (inr bare_password_rules)
  ∧ first_keyword_line "password" "paſſword one
password two" = Some "paſſword one"
  ∧ ∃ status found,
      checkKeywords "paſſword one
password two" bare_password_rules = Some (status, found)
      ∧ found !! "password" =
          (l ← first_keyword_line "password" "paſſword one
password two";
           if checkExceptions (strings.TrimSpace l) [] then None
           else Some (strings.TrimSpace l)).
Proof.
  split; [by_evaluation|]. split; [by_evaluation|].
  apply (literal_rule_result bare_password_defs bare_password_rules "password"
           (literal_rule "password" [])).
  - by_evaluation.
  - by_evaluation.
  - reflexivity.
  - by_evaluation.
  - reflexivity.
Defined.

Lemma ipv6_network_rule_never_matches_witness :
  parseKeywords ipv6_defs = Some (inr ipv6_rules)
  ∧ checkKeywords "host 32.1.13.184 up" ipv6_rules = Some (false, ∅)
  ∧ (∅ : gmap string string) !! "2001:db8::/32" = None.
Proof.
  split; [by_evaluation|]. split; [by_evaluation|].
  apply (ipv6_network_rule_never_matches "host 32.1.13.184 up" ipv6_rules false ∅
           "2001:db8::/32" net_2001_db8 []).
  - by_evaluation.
  - by_evaluation.
  - reflexivity.
Defined.

Lemma cidr_rule_matches_own_address_witness :
  parseKeywords cidr_defs = Some (inr cidr_rules)
  ∧ ∃ found, checkKeywords "route 10.0.0.0 via gw" cidr_rules = Some (true, found)
             ∧ found !! "10.0.0.0/8" = Some "10.0.0.0".
Proof.
  split; [by_evaluation|].
  apply (cidr_rule_matches_own_address cidr_defs cidr_rules "10.0.0.0" "8"
           (cidr_rule net10 [])).
  - by_evaluation.
  - by_evaluation.
  - reflexivity.
  - by_evaluation.
Defined.

Lemma cycle_bounded_staleness_witness :
  sample_list (now (wait start_state)) = (inr ["a"; "b"; "a"], 60000000001%Z)
  ∧ alredyChecked (cycle id sample_list sample_fetch cidr_rules start_state) !! "b"
    = Some 61000000002%Z
  ∧ (now (cycle id sample_list sample_fetch cidr_rules start_state) - 10 * minute
     <= 61000000002)%Z
  ∧ (alredyChecked start_state !! "b" = Some 61000000002%Z
     ∨ (alredyChecked start_state !! "b" = None ∧ "b" ∈ id <$> ["a"; "b"; "a"])).
Proof.
  split; [by_evaluation|]. split; [by_evaluation|].
  apply (cycle_bounded_staleness string id sample_list sample_fetch cidr_rules
           start_state ["a"; "b"; "a"] 60000000001%Z "b" 61000000002%Z).
  - by_evaluation.
  - by_evaluation.
Defined.
